(** * Meshage node: a model of [src/meshage/node.go]

    The node keeps an adjacency map, two sequence tables, a route table and a
    peer registry, all Go maps keyed by node name.  Every operation of the
    source is rendered as a computation over an explicit process state: the
    node's fields, the mutexes the running goroutine holds, the effects it
    has emitted (channel sends, spawned goroutines, socket writes) and the
    acknowledgements its [ackChan] will deliver. *)

From stdpp Require Import base option list gmap fin_maps strings sorting.
From Stdlib Require Import NArith ZArith Lia Ascii.

Local Open Scope string_scope.
Local Open Scope list_scope.

(** ** Go maps and their iteration order *)

Abbreviation adjacency := (gmap string (list string)).

(** [n.mesh[k]] on a missing key yields the nil slice. *)
Definition row (mesh : adjacency) (k : string) : list string :=
  default [] (mesh !! k).

(** [n.setSequences[k]] on a missing key yields 0. *)
Definition seq_of (t : gmap string N) (k : string) : N :=
  default 0%N (t !! k).

(** Go leaves the order of [for k, v := range m] unspecified.  A [MapRange]
    is any enumeration of the entries of a map; all results below hold for
    every such enumeration. *)
Class MapRange := {
  range : ∀ {V : Type}, gmap string V → list (string * V);
  range_perm : ∀ (V : Type) (m : gmap string V), range m ≡ₚ map_to_list m
}.

(** The enumeration in key-encoding order, used to run examples. *)
Definition canonical_range : MapRange :=
  {| range := λ V, map_to_list; range_perm := λ V m, reflexivity _ |}.

(** ** Slices of strings *)

(** [sort.Strings]: the library routine is taken by its contract, ascending
    order under byte-wise lexicographic comparison.  Since that order is
    total and antisymmetric the sorted arrangement is unique
    ([sort_Strings_unique] below), so the choice of algorithm is immaterial. *)
Definition sort_Strings (l : list string) : list string :=
  merge_sort String.le l.

(** One iteration of the duplicate-elimination loop of [union]: [j] is
    appended to [nl] unless it equals the last element of [nl]. *)
Definition compact_step (nl : list string) (j : string) : list string :=
  match last nl with
  | None => nl ++ [j]
  | Some x => if decide (x = j) then nl else nl ++ [j]
  end.

Definition compact (l : list string) : list string :=
  fold_left compact_step l [].

(** The inner search loop of [intersect_locked]: is [x] among [v]? *)
Fixpoint found (x : string) (v : list string) : bool :=
  match v with
  | [] => false
  | y :: v' => if decide (x = y) then true else found x v'
  end.

(** [nv]: the elements of [l] that are not in [v], in order. *)
Fixpoint remove_all (v l : list string) : list string :=
  match l with
  | [] => []
  | x :: l' => if found x v then remove_all v l' else x :: remove_all v l'
  end.

(** ** Data model *)

(** The message-type and command constants ([iota] in the source). *)
Definition SET : Z := 0.
Definition BROADCAST : Z := 1.
Definition UNION : Z := 2.
Definition INTERSECTION : Z := 3.
Definition MESSAGE : Z := 4.
Definition ACK : Z := 5.
Definition HANDSHAKE : Z := 6.
Definition HANDSHAKE_SOLICITED : Z := 7.

(** Go [error] values are represented by their message; [None] is nil. *)
Abbreviation error := (option string).

(** [io.EOF]. *)
Definition EOF : string := "EOF".

Record ack := Ack { Recipient : string; Err : error }.

(** [Body interface{}]: the dynamic types the node registers with gob (an
    adjacency map, an ack), any other application value, or nil. *)
Inductive body :=
| BodyMesh (m : adjacency)
| BodyAck (a : ack)
| BodyValue (payload : string)
| BodyNil.

Record Message := Msg {
  MessageType : Z;
  Recipients : list string;
  Source : string;
  CurrentRoute : list string;
  ID : N;
  Command : Z;
  Body : body
}.

(** A peer session.  The registry stores it by value; the socket it owns is
    identified by a number, from which encoder, decoder and hangup channel
    are derived. *)
Record client := Client { conn : nat }.

Record Node := MkNode {
  name : string;
  degree : N;
  mesh : adjacency;
  setSequences : gmap string N;
  broadcastSequences : gmap string N;
  routes : gmap string string;
  clients : gmap string client
}.

Definition set_mesh (f : adjacency → adjacency) (n : Node) : Node :=
  MkNode (name n) (degree n) (f (mesh n)) (setSequences n)
         (broadcastSequences n) (routes n) (clients n).
Definition set_setSequences (f : gmap string N → gmap string N) (n : Node) : Node :=
  MkNode (name n) (degree n) (mesh n) (f (setSequences n))
         (broadcastSequences n) (routes n) (clients n).
Definition set_broadcastSequences (f : gmap string N → gmap string N) (n : Node) : Node :=
  MkNode (name n) (degree n) (mesh n) (setSequences n)
         (f (broadcastSequences n)) (routes n) (clients n).
Definition set_clients (f : gmap string client → gmap string client) (n : Node) : Node :=
  MkNode (name n) (degree n) (mesh n) (setSequences n)
         (broadcastSequences n) (routes n) (f (clients n)).
Definition set_degree (d : N) (n : Node) : Node :=
  MkNode (name n) d (mesh n) (setSequences n)
         (broadcastSequences n) (routes n) (clients n).

(** The mutexes of a node. *)
Inductive lock := clientLock | sequenceLock | meshLock | degreeLock | setLock.

Global Instance lock_eq_dec : EqDecision lock.
Proof. solve_decision. Defined.

(** What an operation does to the world outside the node's fields. *)
Inductive effect :=
| EError (e : string)                  (* n.errors <- err *)
| EReceive (m : Message)               (* n.receive <- m *)
| EGoSendOne (c : client) (m : Message) (* go n.sendOne(c, m) *)
| EGoHandleMessage (m : Message)       (* go n.handleMessage(m) *)
| EGoSetSend (m : Message)             (* go n.setSend(m) *)
| EGoBroadcastSend (m : Message)       (* go n.broadcastSend(m) *)
| EGoReceiveHandler (peer : string)    (* go n.receiveHandler(peer) *)
| EGoCheckDegree                       (* go n.checkDegree() *)
| EEncode (c : nat) (m : Message)      (* enc.Encode(m) on socket c *)
| EClose (c : nat)                     (* conn.Close() *)
| EHangup (c : client).                (* c.hangup <- true *)

(** The state of one running goroutine: the node it shares, the mutexes it
    holds, the effects emitted so far, and the contents of the node's
    [ackChan], oldest first.  A goroutine starts with no mutex held; a mutex
    held by another goroutine only delays it and is not modelled.  Sends on
    the other channels are recorded as effects and taken to complete. *)
Record proc := Proc {
  node : Node;
  held : list lock;
  trace : list effect;
  ackChan : list ack
}.

(** How a call ends: it returns; it blocks for ever (on a mutex the
    goroutine itself holds, or on an empty [ackChan]); or it panics. *)
Inductive result (A : Type) :=
| Done (a : A) (p : proc)
| Stuck (p : proc)
| Panic (p : proc).
Arguments Done {A} a p.
Arguments Stuck {A} p.
Arguments Panic {A} p.

(** The process state in which a call ended or came to rest. *)
Definition final {A} (r : result A) : proc :=
  match r with Done _ p => p | Stuck p => p | Panic p => p end.

Definition M (A : Type) : Type := proc → result A.

Global Instance M_ret : MRet M := λ A a p, Done a p.
Global Instance M_bind : MBind M := λ A B f m p,
  match m p with
  | Done a p' => f a p'
  | Stuck p' => Stuck p'
  | Panic p' => Panic p'
  end.

Definition get_node : M Node := λ p, Done (node p) p.
Definition modify (f : Node → Node) : M unit :=
  λ p, Done () (Proc (f (node p)) (held p) (trace p) (ackChan p)).
Definition emit (e : effect) : M unit :=
  λ p, Done () (Proc (node p) (held p) (trace p ++ [e]) (ackChan p)).
Definition panic {A} : M A := λ p, Panic p.

(** [sync.Mutex] is not reentrant: locking a mutex the goroutine already
    holds never returns. *)
Definition Lock (l : lock) : M unit := λ p,
  if decide (l ∈ held p) then Stuck p
  else Done () (Proc (node p) (l :: held p) (trace p) (ackChan p)).

(** Unlocking a mutex that is not locked is a fatal run-time error. *)
Definition Unlock (l : lock) : M unit := λ p,
  if decide (l ∈ held p)
  then Done () (Proc (node p) (filter (λ l', l' ≠ l) (held p)) (trace p) (ackChan p))
  else Panic p.

(** [n.ackChan <- a], from this goroutine or from one it spawns for the
    purpose. *)
Definition push_ack (a : ack) : M unit :=
  λ p, Done () (Proc (node p) (held p) (trace p) (ackChan p ++ [a])).

(** [<-n.ackChan]: blocks until an ack is available. *)
Definition recv_ack : M ack := λ p,
  match ackChan p with
  | [] => Stuck p
  | a :: rest => Done a (Proc (node p) (held p) (trace p) rest)
  end.

(** A [for _, x := range l] loop whose body only acts on the state. *)
Fixpoint for_each {A} (l : list A) (f : A → M unit) : M unit :=
  match l with
  | [] => mret ()
  | x :: l' => f x ;; for_each l' f
  end.

(** A loop that threads a local variable through its iterations. *)
Fixpoint fold_each {A B} (f : B → A → M B) (l : list A) (b : B) : M B :=
  match l with
  | [] => mret b
  | x :: l' => b' ← f b x; fold_each f l' b'
  end.

(** Run a call in a fresh goroutine on node [n], with [inbox] the acks
    waiting on [ackChan]. *)
Definition call {A} (f : M A) (n : Node) (inbox : list ack) : result A :=
  f (Proc n [] [] inbox).

(** ** Operations of the node *)

Definition with_route (m : Message) (r : list string) : Message :=
  Msg (MessageType m) (Recipients m) (Source m) r (ID m) (Command m) (Body m).
Definition with_recipients (m : Message) (r : list string) : Message :=
  Msg (MessageType m) r (Source m) (CurrentRoute m) (ID m) (Command m) (Body m).

(** uint64 increment. *)
Definition incr64 (x : N) : N := ((x + 1) mod 2 ^ 64)%N.

(** [NewNode]: the fields of a fresh node. *)
Definition NewNode (nm : string) (d : N) : Node :=
  MkNode nm d ∅ {[nm := 1%N]} {[nm := 1%N]} ∅ ∅.

Section Operations.
Context `{!MapRange}.

(** [updateRoute] is defined outside [node.go]; it is taken as an
    arbitrary update of the node. *)
Variable updateRoute : string → Node → Node.

(** The body of the loop of [intersect_locked] for one entry of [m].
    The unlock of [sequenceLock] is deferred to the return of
    [intersect_locked]; the loop counts the deferred calls. *)
Definition intersect_key (deferred : nat) (kv : string * list string) : M nat :=
  n ← get_node;
  let nv := remove_all kv.2 (row (mesh n) kv.1) in
  modify (set_mesh <[kv.1 := nv]>);;
  if decide (length nv = 0) then
    modify (set_mesh (delete kv.1));;
    Lock sequenceLock;;
    modify (set_setSequences (delete kv.1));;
    modify (set_broadcastSequences (delete kv.1));;
    mret (S deferred)
  else mret deferred.

Definition intersect_locked (m : adjacency) : M unit :=
  deferred ← fold_each intersect_key (range m) 0;
  for_each (replicate deferred sequenceLock) Unlock.

Definition intersect (m : adjacency) : M unit :=
  Lock meshLock;;
  intersect_locked m;;
  Unlock meshLock.

Definition broadcastID : M N :=
  Lock sequenceLock;;
  n ← get_node;
  let id := seq_of (broadcastSequences n) (name n) in
  modify (set_broadcastSequences <[name n := incr64 id]>);;
  Unlock sequenceLock;;
  mret id.

Definition setID : M N :=
  Lock sequenceLock;;
  n ← get_node;
  let id := seq_of (setSequences n) (name n) in
  modify (set_setSequences <[name n := incr64 id]>);;
  Unlock sequenceLock;;
  mret id.

Definition broadcastSend (m : Message) : M unit :=
  Lock clientLock;;
  n ← get_node;
  for_each (range (clients n)) (λ kc, emit (EGoSendOne kc.2 m));;
  Unlock clientLock.

(** The error for a recipient without route. *)
Definition no_route (v : string) : string := "no route to host: " +:+ v.

(** The first loop of [setSend], for one recipient [v]: look the route up,
    refresh it once if it is missing, and file [v] under its next hop or
    hand a failed ack to [ackChan]. *)
Definition route_one (route_slices : adjacency) (v : string) : M adjacency :=
  n ← get_node;
  match routes n !! v with
  | Some route => mret (<[route := row route_slices route ++ [v]]> route_slices)
  | None =>
    modify (updateRoute v);;
    n' ← get_node;
    match routes n' !! v with
    | Some route => mret (<[route := row route_slices route ++ [v]]> route_slices)
    | None =>
      emit (EError (no_route v));;
      push_ack (Ack v (Some (no_route v)));;
      mret route_slices
    end
  end.

(** The second loop of [setSend], for one next hop. *)
Definition send_slice (m : Message) (kv : string * list string) : M unit :=
  n ← get_node;
  match clients n !! kv.1 with
  | Some c => emit (EGoSendOne c (with_recipients m kv.2))
  | None => emit (EError "mismatched client list and topology, something is very wrong")
  end.

(** The third loop of [setSend]: [i] acks are still awaited and [ret] is
    the error accumulated so far. *)
Fixpoint await (i : nat) (ret : error) : M error :=
  match i with
  | O => mret ret
  | S i' =>
    a ← recv_ack;
    match Err a with
    | Some e =>
      emit (EError e);;
      await i' (Some match ret with
                     | None => "failed to send to: " +:+ Recipient a
                     | Some r => r +:+ ", " +:+ Recipient a
                     end)
    | None => await i' ret
    end
  end.

Definition setSend (m : Message) : M error :=
  Lock setLock;;
  Lock clientLock;;
  route_slices ← fold_each route_one (Recipients m) ∅;
  for_each (range route_slices) (send_slice m);;
  Unlock clientLock;;
  ret ← await (length (Recipients m)) None;
  Unlock setLock;;
  mret ret.

Definition Send (m : Message) : M unit :=
  if decide (MessageType m = SET) then setSend m;; mret ()
  else if decide (MessageType m = BROADCAST) then broadcastSend m
  else emit (EError "Send: invalid message type").

(** The merge loop of [union] for one entry of [m]. *)
Definition union_key (kv : string * list string) : M unit :=
  modify (set_mesh (λ me,
    <[kv.1 := compact (sort_Strings (row me kv.1 ++ kv.2))]> me)).

(** The conflict loop of [union] for one neighbour [v] of this node. *)
Definition conflict_step (n : Node) (im : adjacency) (v : string) : adjacency :=
  match clients n !! v with
  | Some _ => im
  | None =>
    let im1 := <[name n := row im (name n) ++ [v]]> im in
    <[v := row im1 v ++ [name n]]> im1
  end.

Definition intersection_mesh (n : Node) : adjacency :=
  fold_left (conflict_step n) (row (mesh n) (name n)) ∅.

Definition union (m : adjacency) : M unit :=
  Lock meshLock;;
  Lock clientLock;;
  for_each (range m) union_key;;
  n ← get_node;
  let im := intersection_mesh n in
  (if decide (size im ≠ 0) then
     intersect_locked im;;
     id ← broadcastID;
     Send (Msg BROADCAST [] (name n) [name n] id INTERSECTION (BodyMesh im))
   else mret ());;
  Unlock clientLock;;
  Unlock meshLock.

(** [handleMessage]: a failed type assertion on the body panics. *)
Definition handleMessage (m : Message) : M unit :=
  if decide (Command m = UNION) then
    match Body m with BodyMesh b => union b | _ => panic end
  else if decide (Command m = INTERSECTION) then
    match Body m with BodyMesh b => intersect b | _ => panic end
  else if decide (Command m = MESSAGE) then emit (EReceive m)
  else if decide (Command m = ACK) then
    match Body m with BodyAck a => push_ack a | _ => panic end
  else emit (EError "handleMessage: invalid message type").

(** The split of the recipients of an inbound set message: one handler
    goroutine per occurrence of this node, the others are kept. *)
Definition split_recipient (self : string) (m : Message)
    (new_recipients : list string) (i : string) : M (list string) :=
  if decide (i = self) then emit (EGoHandleMessage m);; mret new_recipients
  else mret (new_recipients ++ [i]).

(** One iteration of the loop of [messageHandler], on the message [m]
    taken from [messagePump]. *)
Definition messageHandler (m : Message) : M unit :=
  n ← get_node;
  if decide (MessageType m = SET) then
    if decide (seq_of (setSequences n) (Source m) < ID m)%N then
      Lock sequenceLock;;
      modify (set_setSequences <[Source m := ID m]>);;
      Unlock sequenceLock;;
      let m1 := with_route m (CurrentRoute m ++ [name n]) in
      new_recipients ← fold_each (split_recipient (name n) m1) (Recipients m1) [];
      emit (EGoSetSend (with_recipients m1 new_recipients))
    else mret ()
  else if decide (MessageType m = BROADCAST) then
    if decide (seq_of (broadcastSequences n) (Source m) < ID m)%N then
      Lock sequenceLock;;
      modify (set_broadcastSequences <[Source m := ID m]>);;
      Unlock sequenceLock;;
      let m1 := with_route m (CurrentRoute m ++ [name n]) in
      emit (EGoBroadcastSend m1);;
      handleMessage m1
    else mret ()
  else mret ().

Definition Hangup (peer : string) : M error :=
  Lock clientLock;;
  n ← get_node;
  match clients n !! peer with
  | None => Unlock clientLock;; mret (Some "no such client")
  | Some c => emit (EHangup c);; Unlock clientLock;; mret None
  end.

(** [dial].  The outcomes of the socket operations are inputs: [dialed]
    is the result of [net.Dial] (an error or a socket), [decoded] that of
    decoding the peer's handshake, [encoded] that of encoding the reply. *)
Definition dial (dialed : string + nat) (decoded : string + Message)
    (encoded : error) (solicited : bool) : M error :=
  match dialed with
  | inl err => mret (Some err)
  | inr c =>
    match decoded with
    | inl err => mret (Some err)
    | inr hs =>
      n ← get_node;
      if decide (Source hs = name n) then
        emit (EClose c);; mret (Some "connecting to myself is not allowed")
      else if decide (is_Some (clients n !! Source hs)) then
        emit (EClose c);; mret (Some "already connected")
      else if decide (Command hs = HANDSHAKE ∧ solicited = true) then
        emit (EClose c);; mret None
      else
        emit (EEncode c (Msg SET [] (name n) [name n] 0 ACK BodyNil));;
        match encoded with
        | Some err => mret (Some err)
        | None =>
          Lock clientLock;;
          modify (set_clients <[Source hs := Client c]>);;
          Unlock clientLock;;
          emit (EGoReceiveHandler (Source hs));;
          match Body hs with
          | BodyMesh mesh0 =>
            let mesh1 := <[name n := row mesh0 (name n) ++ [Source hs]]> mesh0 in
            let mesh2 := <[Source hs := row mesh1 (Source hs) ++ [name n]]> mesh1 in
            union mesh2;;
            id ← broadcastID;
            n' ← get_node;
            Send (Msg BROADCAST [] (name n) [name n] id UNION (BodyMesh (mesh n')));;
            mret None
          | _ => panic
          end
        end
    end
  end.

(** The error branch shared by the two socket operations of
    [handleConnection]. *)
Definition report_unless_EOF (err : string) : M unit :=
  if decide (err = EOF) then mret () else emit (EError err).

(** [handleConnection] on the accepted socket [c]: [encoded] is the result
    of sending the handshake and [decoded] that of reading the reply. *)
Definition handleConnection (c : nat) (encoded : error)
    (decoded : string + Message) : M unit :=
  n ← get_node;
  let command :=
    if decide (N.of_nat (size (clients n)) < degree n)%N
    then HANDSHAKE_SOLICITED else HANDSHAKE in
  emit (EEncode c (Msg SET [] (name n) [name n] 0 command (BodyMesh (mesh n))));;
  match encoded with
  | Some err => report_unless_EOF err
  | None =>
    match decoded with
    | inl err => report_unless_EOF err
    | inr hs =>
      Lock clientLock;;
      modify (set_clients <[Source hs := Client c]>);;
      Unlock clientLock;;
      emit (EGoReceiveHandler (Source hs))
    end
  end.

(** [receiveHandler] once the hangup arm of its select has fired. *)
Definition receiveHandler_hangup (peer : string) : M unit :=
  Lock clientLock;;
  modify (set_clients (delete peer));;
  Unlock clientLock;;
  n ← get_node;
  let mesh0 : adjacency := <[peer := [name n]]> (<[name n := [peer]]> ∅) in
  intersect mesh0;;
  id ← broadcastID;
  Send (Msg BROADCAST [] (name n) [name n] id INTERSECTION (BodyMesh mesh0));;
  emit EGoCheckDegree.


Definition Broadcast (b : body) : M unit :=
  n ← get_node;
  id ← broadcastID;
  broadcastSend (Msg BROADCAST [] (name n) [name n] id MESSAGE b).

Definition Mesh : M adjacency :=
  Lock meshLock;;
  n ← get_node;
  Unlock meshLock;;
  mret (mesh n).

Definition SetDegree (d : N) : M unit := modify (set_degree d).

Definition Degree : M N := n ← get_node; mret (degree n).
End Operations.

(** ** Predicates used in the statements *)

(** A neighbour list is in order when it ascends and repeats nothing. *)
Definition ordered (l : list string) : Prop :=
  Sorted String.le l ∧ NoDup l.

(** The invariant of the adjacency map: every row is [ordered]. *)
Definition mesh_ordered (me : adjacency) : Prop :=
  ∀ k l, me !! k = Some l → ordered l.

(** No key of the adjacency map carries an empty row. *)
Definition no_empty_row (me : adjacency) : Prop :=
  ∀ k l, me !! k = Some l → l ≠ [].

(** [compact (a :: l)] written by recursion on [l]. *)
Fixpoint squeeze (a : string) (l : list string) : list string :=
  match l with
  | [] => [a]
  | j :: l' => if decide (a = j) then squeeze a l' else a :: squeeze j l'
  end.

(** The error [await] builds from the recipients of the failed acks. *)
Definition composite (ret : error) (failed : list string) : error :=
  fold_left (λ r x, Some match r with
                         | None => "failed to send to: " +:+ x
                         | Some s => s +:+ ", " +:+ x
                         end) failed ret.

(** The recipients named by the acks that carry an error. *)
Definition failed_recipients (l : list ack) : list string :=
  Recipient <$> filter (λ a, Err a ≠ None) l.

(** The adjacency map after the merge loop of [union] has run over the
    entries [kvs]. *)
Definition merge_rows (kvs : list (string * list string)) (me : adjacency) : adjacency :=
  fold_left (λ me kv, <[kv.1 := compact (sort_Strings (row me kv.1 ++ kv.2))]> me) kvs me.

(** The node as the conflict check of [union] finds it. *)
Definition merged_node `{!MapRange} (m : adjacency) (n : Node) : Node :=
  set_mesh (merge_rows (range m)) n.

(** [f] keeps [Q], a property of the node and of the mutexes held, when [Q]
    holds wherever [f] ends, be it by returning, blocking or panicking. *)
Definition keeps (Q : Node → list lock → Prop) {A} (f : M A) : Prop :=
  ∀ p, Q (node p) (held p) →
       Q (node (final (f p))) (held (final (f p))).

(** A property of the adjacency map alone. *)
Definition on_mesh (J : adjacency → Prop) : Node → list lock → Prop :=
  λ n _, J (mesh n).

(** The running goroutine holds [clientLock]. *)
Definition holds_clientLock : Node → list lock → Prop :=
  λ _ h, clientLock ∈ h.

(** The node states a run passes through, as far as the adjacency map is
    concerned: a fresh node, the state in which a [union] or an [intersect]
    ends, and any step that leaves the adjacency map alone. *)
Inductive reachable `{!MapRange} (updateRoute : string → Node → Node) : Node → Prop :=
| reach_new nm d : reachable updateRoute (NewNode nm d)
| reach_frame n n' :
    reachable updateRoute n → mesh n' = mesh n → reachable updateRoute n'
| reach_union n m q :
    reachable updateRoute n →
    reachable updateRoute (node (final (call (union updateRoute m) n q)))
| reach_intersect n m q :
    reachable updateRoute n →
    reachable updateRoute (node (final (call (intersect m) n q))).

(** The sequence number the router compares an inbound message with. *)
Definition last_seen (n : Node) (m : Message) : N :=
  if decide (MessageType m = SET) then seq_of (setSequences n) (Source m)
  else seq_of (broadcastSequences n) (Source m).

(** The text that follows the first failed recipient in the error of
    [setSend]. *)
Definition more_names (xs : list string) : string :=
  foldr (λ y s, ", " +:+ y +:+ s) "" xs.

(** ** Concrete inputs *)

(** A route refresh that finds nothing. *)
Definition no_refresh : string → Node → Node := λ _ n, n.

(** The reply of a peer that announces itself as [src]. *)
Definition reply_from (src : string) : Message :=
  Msg SET [] src [src] 0 ACK BodyNil.

(** Node [a] with a session to [b] on socket 1. *)
Definition node_a_connected_to_b : Node :=
  set_clients <["b" := Client 1]> (NewNode "a" 1).

(** Node [a] holding counters for the unknown nodes [b] and [c]. *)
Definition node_a_with_counters : Node :=
  set_broadcastSequences (λ t, <["b" := 5%N]> (<["c" := 7%N]> t))
    (set_setSequences (λ t, <["b" := 5%N]> (<["c" := 7%N]> t)) (NewNode "a" 1)).

(** Two edges towards [a], from [b] and from [c]. *)
Definition edges_b_c : adjacency := <["b" := ["a"]]> {["c" := ["a"]]}.

(** A fragment with one unsorted row that repeats an entry. *)
Definition fragment_x : adjacency := {["x" := ["c"; "b"; "c"]]}.

(** A fresh node [a] after [union] with [fragment_x]. *)
Definition node_a_after_x : Node :=
  set_mesh (λ _, {["x" := ["b"; "c"]]}) (NewNode "a" 1).

(** A set message from [b] with id 5, addressed to [a]. *)
Definition set_from_b : Message :=
  Msg SET ["a"] "b" ["b"] 5 MESSAGE (BodyValue "x").

(** A set message from [a] to the unknown node [z]. *)
Definition set_to_z : Message :=
  Msg SET ["z"] "a" ["a"] 1 MESSAGE (BodyValue "x").

(** ** Discovery *)

(** The datagram [checkDegree] broadcasts: [fmt.Sprintf("meshage:%s", n.name)]. *)
Definition solicitation (nm : string) : string := "meshage:" +:+ nm.

(** The end of an iteration of [checkDegree]: [if backoff < 7 { backoff++ }]. *)
Definition next_backoff (backoff : N) : N :=
  if (backoff <? 7)%N then (backoff + 1)%N else backoff.

(** [1 << backoff], the bound handed to [r.Intn] for the wait in seconds. *)
Definition wait_bound (backoff : N) : N := N.shiftl 1 backoff.

(** The value of [backoff] when iteration [k] of the loop begins. *)
Definition backoff_at (k : nat) : N := Nat.iter k next_backoff 1%N.

(** What one iteration of [checkDegree] does: [dialed] and [written] are
    the results of [net.DialUDP] and of [socket.Write]. *)
Inductive solicit_step :=
| Solicit (packet : string) (bound : N) (backoff' : N)
| SolicitFailed (err : string)
| DegreeReached.

Definition checkDegree_iteration (n : Node) (dialed written : error)
    (backoff : N) : solicit_step :=
  if decide (N.of_nat (size (clients n)) < degree n)%N then
    match dialed with
    | Some err => SolicitFailed err
    | None =>
      match written with
      | Some err => SolicitFailed err
      | None => Solicit (solicitation (name n)) (wait_bound backoff) (next_backoff backoff)
      end
    end
  else DegreeReached.

(** [strings.Split(s, ":")]: the pieces of [s] between colons; there is
    always one piece more than there are colons. *)
Fixpoint split_colon (s : string) : list string :=
  match s with
  | EmptyString => [EmptyString]
  | String c s' =>
    if decide (c = ":"%char) then EmptyString :: split_colon s'
    else match split_colon s' with
         | [] => [String c EmptyString]
         | w :: ws => String c w :: ws
         end
  end.

(** What [broadcastListener] does with one datagram. *)
Inductive listener_step :=
| Malformed (data : list string)   (* reported on the error channel *)
| FromMyself                       (* dropped *)
| DialSolicited (host : string).   (* go n.dial(host, true) *)

(** One iteration of the loop of [broadcastListener]: [payload] is
    [string(d[:read])], the bytes read from the socket. *)
Definition broadcastListener_packet (self : string) (payload : string) : listener_step :=
  let data := split_colon payload in
  if decide (length data ≠ 2) then Malformed data
  else if decide (nth 0 data EmptyString ≠ "meshage") then Malformed data
  else
    let host := nth 1 data EmptyString in
    if decide (host = self) then FromMyself else DialSolicited host.

(** A name without colon. *)
Fixpoint colon_free (s : string) : Prop :=
  match s with
  | EmptyString => True
  | String c s' => c ≠ ":"%char ∧ colon_free s'
  end.

(** ** Further predicates *)

(** The entries of an intersection input whose row the removal empties. *)
Definition emptied_keys (me : adjacency) (kvs : list (string * list string))
    : list (string * list string) :=
  filter (λ kv, remove_all kv.2 (row me kv.1) = []) kvs.

(** At most one key of [m] has its row emptied by the removal. *)
Definition empties_at_most_one (me : adjacency) (m : adjacency) : Prop :=
  ∀ k1 v1 k2 v2,
    m !! k1 = Some v1 → m !! k2 = Some v2 →
    remove_all v1 (row me k1) = [] → remove_all v2 (row me k2) = [] → k1 = k2.

(** The sends [broadcastSend] spawns for a registry enumerated as [kcs]. *)
Definition fan_out (m : Message) (kcs : list (string * client)) : list effect :=
  (λ kc, EGoSendOne kc.2 m) <$> kcs.

(** [f] is silent when, wherever it ends, it has emitted nothing and has
    left [ackChan] alone. *)
Definition silent {A} (f : M A) : Prop :=
  ∀ p, trace (final (f p)) = trace p ∧ ackChan (final (f p)) = ackChan p.

(** A broadcast from [b] with id 9 that withdraws the edge from [b] to [a]. *)
Definition withdrawal_from_b : Message :=
  Msg BROADCAST [] "b" ["b"] 9 INTERSECTION (BodyMesh {["b" := ["a"]]}).


(** The handshake of node [b] when it wants peers, and when it does not. *)
Definition hello_from_b : Message :=
  Msg SET [] "b" ["b"] 0 HANDSHAKE_SOLICITED (BodyMesh ∅).
Definition cold_hello_from_b : Message :=
  Msg SET [] "b" ["b"] 0 HANDSHAKE (BodyMesh ∅).

(** Node [a] linked to [b] alone, and linked to [b] with a row that also
    names [c]. *)
Definition node_a_linked_to_b : Node :=
  set_mesh (λ _, <["a" := ["b"]]> {["b" := ["a"]]}) node_a_connected_to_b.
Definition node_a_linked_to_b_c : Node :=
  set_mesh (λ _, <["a" := ["b"; "c"]]> {["b" := ["a"]]}) node_a_connected_to_b.

(** ** Slices: searching, sorting, squeezing *)

Lemma found_elem_of x v : found x v = true ↔ x ∈ v.
Proof.
  induction v as [|y v IH]; simpl.
  - split; [discriminate | by intros ?%elem_of_nil].
  - rewrite elem_of_cons. destruct (decide (x = y)) as [Heq|Hne].
    + split; [by left|done].
    + rewrite IH. split; [by right|]. by intros [Heq|Hin].
Qed.

Lemma elem_of_remove_all v l x : x ∈ remove_all v l ↔ x ∈ l ∧ x ∉ v.
Proof.
  induction l as [|y l IH]; simpl.
  - rewrite elem_of_nil. tauto.
  - destruct (found y v) eqn:Hf.
    + apply found_elem_of in Hf. rewrite IH, elem_of_cons. split.
      * intros [Hx Hv]. split; [by right|done].
      * intros [[Heq|Hx] Hv]; [by subst|done].
    + assert (y ∉ v) by (rewrite <-found_elem_of; congruence).
      rewrite !elem_of_cons, IH. split.
      * intros [Heq|[Hx Hv]]; [subst; split; [by left|done] | split; [by right|done]].
      * intros [[Heq|Hx] Hv]; [by left | by right].
Qed.

Lemma remove_all_sublist v l : remove_all v l `sublist_of` l.
Proof.
  induction l as [|y l IH]; simpl; [constructor|].
  destruct (found y v); by constructor.
Qed.

Lemma remove_all_idemp v l : remove_all v (remove_all v l) = remove_all v l.
Proof.
  induction l as [|y l IH]; simpl; [done|].
  destruct (found y v) eqn:Hf; simpl; [done|]. by rewrite Hf, IH.
Qed.

Lemma StronglySorted_le_sublist (l1 l2 : list string) :
  l1 `sublist_of` l2 → StronglySorted String.le l2 → StronglySorted String.le l1.
Proof.
  induction 1 as [|x l1 l2 Hs IH|x l1 l2 Hs IH]; intros Hl2.
  - constructor.
  - apply StronglySorted_inv in Hl2 as [Hl2 Hx]. constructor; [by apply IH|].
    rewrite Forall_forall in Hx |- *. intros y Hy. apply Hx.
    by eapply elem_of_sublist.
  - apply StronglySorted_inv in Hl2 as [Hl2 _]. by apply IH.
Qed.

Lemma ordered_nil : ordered [].
Proof. split; constructor. Qed.

Lemma ordered_sublist l1 l2 : l1 `sublist_of` l2 → ordered l2 → ordered l1.
Proof.
  intros Hs [Hso Hnd]. split.
  - apply StronglySorted_Sorted, (StronglySorted_le_sublist _ l2); [done|].
    by apply Sorted_StronglySorted; [apply _|].
  - by eapply sublist_NoDup.
Qed.

Lemma ordered_remove_all v l : ordered l → ordered (remove_all v l).
Proof. apply ordered_sublist, remove_all_sublist. Qed.

(** Two ordered lists with the same elements are the same list. *)
Lemma ordered_ext l1 l2 :
  ordered l1 → ordered l2 → (∀ x, x ∈ l1 ↔ x ∈ l2) → l1 = l2.
Proof.
  intros [Hs1 Hn1] [Hs2 Hn2] Hel.
  apply (Sorted_unique String.le); [done..|]. by apply NoDup_Permutation.
Qed.

Lemma sort_Strings_Sorted l : Sorted String.le (sort_Strings l).
Proof. apply (Sorted_merge_sort String.le). Qed.

Lemma sort_Strings_Permutation l : sort_Strings l ≡ₚ l.
Proof. apply (merge_sort_Permutation String.le). Qed.

(** Any ascending arrangement of [l] is the one [sort_Strings] returns. *)
Lemma sort_Strings_unique l l' :
  Sorted String.le l' → l' ≡ₚ l → l' = sort_Strings l.
Proof.
  intros Hs Hp. apply (Sorted_unique String.le); [done|apply sort_Strings_Sorted|].
  by rewrite Hp, sort_Strings_Permutation.
Qed.

Lemma compact_step_fold l acc a :
  fold_left compact_step l (acc ++ [a]) = acc ++ squeeze a l.
Proof.
  revert acc a. induction l as [|j l IH]; intros acc a; simpl; [done|].
  unfold compact_step at 2. rewrite last_snoc.
  destruct (decide (a = j)) as [->|Hne].
  - apply IH.
  - rewrite IH. by rewrite <-app_assoc.
Qed.

Lemma compact_cons a l : compact (a :: l) = squeeze a l.
Proof. unfold compact. simpl. apply (compact_step_fold l [] a). Qed.

Lemma elem_of_squeeze a l x : x ∈ squeeze a l ↔ x ∈ a :: l.
Proof.
  revert a. induction l as [|j l IH]; intros a; simpl; [done|].
  destruct (decide (a = j)) as [->|Hne].
  - rewrite IH, !elem_of_cons. split.
    + intros [Heq|Hx]; [by left | by right; right].
    + intros [Heq|[Heq|Hx]]; [by left | by left | by right].
  - rewrite elem_of_cons, IH, !elem_of_cons. tauto.
Qed.

Lemma squeeze_ordered a l :
  StronglySorted String.le (a :: l) → ordered (squeeze a l).
Proof.
  revert a. induction l as [|j l IH]; intros a Hs; simpl.
  - split; [repeat constructor | apply NoDup_singleton].
  - apply StronglySorted_inv in Hs as [Hs Ha].
    destruct (decide (a = j)) as [->|Hne].
    + apply IH. apply StronglySorted_inv in Hs as [Hs Hj]. by constructor.
    + destruct (IH j Hs) as [Hso Hnd].
      rewrite Forall_forall in Ha.
      assert (∀ y, y ∈ squeeze j l → String.le a y) as Hle.
      { intros y Hy. apply Ha. by apply elem_of_squeeze. }
      split.
      * constructor; [done|].
        destruct (squeeze j l) as [|y s] eqn:Hsq; constructor.
        apply Hle. by left.
      * constructor; [|done]. intros Hin.
        apply Hne. apply (anti_symm String.le).
        -- apply Ha. by left.
        -- apply StronglySorted_inv in Hs as [_ Hj].
           rewrite Forall_forall in Hj.
           apply elem_of_squeeze, elem_of_cons in Hin as [->|Hin]; [done|].
           by apply Hj.
Qed.

Lemma elem_of_compact l x : x ∈ compact l ↔ x ∈ l.
Proof. destruct l as [|a l]; [done|]. rewrite compact_cons. apply elem_of_squeeze. Qed.

Lemma compact_ordered l : Sorted String.le l → ordered (compact l).
Proof.
  destruct l as [|a l]; intros Hs; [apply ordered_nil|].
  rewrite compact_cons. apply squeeze_ordered.
  by apply Sorted_StronglySorted; [apply _|].
Qed.

(** What the merge loop stores in a row. *)
Lemma elem_of_merged_row l x : x ∈ compact (sort_Strings l) ↔ x ∈ l.
Proof. by rewrite elem_of_compact, sort_Strings_Permutation. Qed.

Lemma merged_row_ordered l : ordered (compact (sort_Strings l)).
Proof. apply compact_ordered, sort_Strings_Sorted. Qed.

Lemma merged_row_nil l : compact (sort_Strings l) = [] ↔ l = [].
Proof.
  split.
  - intros Hc. destruct l as [|a l]; [done|]. exfalso.
    assert (a ∈ compact (sort_Strings (a :: l))) as Ha
      by (apply elem_of_merged_row; by left).
    rewrite Hc in Ha. by apply elem_of_nil in Ha.
  - by intros ->.
Qed.

Lemma merged_row_idemp l v :
  compact (sort_Strings (compact (sort_Strings (l ++ v)) ++ v))
  = compact (sort_Strings (l ++ v)).
Proof.
  apply ordered_ext; [apply merged_row_ordered..|].
  intros x. rewrite !elem_of_merged_row, !elem_of_app, elem_of_merged_row, elem_of_app.
  tauto.
Qed.

(** ** Properties kept by every step of a computation *)

Section Preservation.
Context (Q : Node → list lock → Prop).

Lemma keeps_ret {A} (a : A) : keeps Q (mret a).
Proof. by intros p Hp. Qed.

Lemma keeps_bind {A B} (f : M A) (g : A → M B) :
  keeps Q f → (∀ a, keeps Q (g a)) → keeps Q (f ≫= g).
Proof.
  intros Hf Hg p Hp. specialize (Hf p Hp).
  unfold mbind, M_bind. destruct (f p) as [a p'|p'|p']; simpl in *; [|done..].
  by apply Hg.
Qed.

Lemma keeps_emit e : keeps Q (emit e).
Proof. by intros p Hp. Qed.

Lemma keeps_push_ack a : keeps Q (push_ack a).
Proof. by intros p Hp. Qed.

Lemma keeps_recv_ack : keeps Q recv_ack.
Proof. intros p Hp. unfold recv_ack. by destruct (ackChan p). Qed.

Lemma keeps_panic {A} : keeps Q (@panic A).
Proof. by intros p Hp. Qed.

Lemma keeps_modify g : (∀ n h, Q n h → Q (g n) h) → keeps Q (modify g).
Proof. intros Hg p Hp. by apply Hg. Qed.

Lemma keeps_Lock l : (∀ n h, Q n h → Q n (l :: h)) → keeps Q (Lock l).
Proof.
  intros Hl p Hp. unfold Lock. destruct (decide (l ∈ held p)); simpl; auto.
Qed.

Lemma keeps_Unlock l :
  (∀ n h, Q n h → Q n (filter (λ l', l' ≠ l) h)) → keeps Q (Unlock l).
Proof.
  intros Hl p Hp. unfold Unlock. destruct (decide (l ∈ held p)); simpl; auto.
Qed.

Lemma keeps_for_each {A} (l : list A) (f : A → M unit) :
  (∀ x, x ∈ l → keeps Q (f x)) → keeps Q (for_each l f).
Proof.
  induction l as [|x l IH]; intros Hf; simpl; [apply keeps_ret|].
  apply keeps_bind; [apply Hf; by left|].
  intros _. apply IH. intros y Hy. apply Hf. by right.
Qed.

Lemma keeps_fold_each {A B} (f : B → A → M B) (l : list A) (b : B) :
  (∀ b x, x ∈ l → keeps Q (f b x)) → keeps Q (fold_each f l b).
Proof.
  revert b. induction l as [|x l IH]; intros b Hf; simpl; [apply keeps_ret|].
  apply keeps_bind; [apply Hf; by left|].
  intros b'. apply IH. intros b'' y Hy. apply Hf. by right.
Qed.

(** The continuation of [get_node] may use what was read. *)
Lemma keeps_get_node {A} (g : Node → M A) :
  (∀ p, Q (node p) (held p) →
        Q (node (final (g (node p) p))) (held (final (g (node p) p)))) →
  keeps Q (get_node ≫= g).
Proof. intros Hg p Hp. by apply Hg. Qed.
End Preservation.

Section MeshPreservation.
Context `{!MapRange}.
Variable updateRoute : string → Node → Node.
Context (J : adjacency → Prop).

Hypothesis J_delete : ∀ me k, J me → J (delete k me).

Lemma keeps_mesh_Lock l : keeps (on_mesh J) (Lock l).
Proof. by apply keeps_Lock. Qed.

Lemma keeps_mesh_Unlock l : keeps (on_mesh J) (Unlock l).
Proof. by apply keeps_Unlock. Qed.

Lemma keeps_mesh_intersect_key d kv :
  (∀ me, J me → remove_all kv.2 (row me kv.1) ≠ [] →
         J (<[kv.1 := remove_all kv.2 (row me kv.1)]> me)) →
  keeps (on_mesh J) (intersect_key d kv).
Proof.
  intros Hins p Hp. unfold intersect_key, on_mesh in *.
  unfold mbind, M_bind, get_node, modify, Lock; simpl.
  destruct (decide (length (remove_all kv.2 (row (mesh (node p)) kv.1)) = 0))
    as [Hz|Hnz]; simpl.
  - destruct (decide (sequenceLock ∈ held p)); simpl;
      rewrite delete_insert_eq; by apply J_delete.
  - apply Hins; [done|]. intros Hnil. by rewrite Hnil in Hnz.
Qed.

Lemma keeps_mesh_intersect_locked m :
  (∀ k v me, m !! k = Some v → J me → remove_all v (row me k) ≠ [] →
             J (<[k := remove_all v (row me k)]> me)) →
  keeps (on_mesh J) (intersect_locked m).
Proof.
  intros Hins. unfold intersect_locked. apply keeps_bind.
  - apply keeps_fold_each. intros d [k v] Hkv.
    apply keeps_mesh_intersect_key. intros me. apply (Hins k v).
    rewrite range_perm in Hkv. by apply elem_of_map_to_list in Hkv.
  - intros d. apply keeps_for_each. intros l _. apply keeps_mesh_Unlock.
Qed.

Lemma keeps_mesh_intersect m :
  (∀ k v me, m !! k = Some v → J me → remove_all v (row me k) ≠ [] →
             J (<[k := remove_all v (row me k)]> me)) →
  keeps (on_mesh J) (intersect m).
Proof.
  intros Hins. unfold intersect.
  apply keeps_bind; [apply keeps_mesh_Lock|]. intros _.
  apply keeps_bind; [by apply keeps_mesh_intersect_locked|]. intros _.
  apply keeps_mesh_Unlock.
Qed.

Lemma keeps_mesh_broadcastID : keeps (on_mesh J) broadcastID.
Proof.
  unfold broadcastID.
  apply keeps_bind; [apply keeps_mesh_Lock|]. intros _.
  apply keeps_get_node. intros p Hp.
  unfold mbind, M_bind, modify, Unlock; simpl.
  by destruct (decide (sequenceLock ∈ held p)).
Qed.

Lemma keeps_mesh_broadcastSend msg : keeps (on_mesh J) (broadcastSend msg).
Proof.
  unfold broadcastSend.
  apply keeps_bind; [apply keeps_mesh_Lock|]. intros _.
  apply keeps_get_node. intros p Hp.
  apply (keeps_bind (on_mesh J)); [| intros _; apply keeps_mesh_Unlock | done].
  apply keeps_for_each. intros kc _. apply keeps_emit.
Qed.

Lemma Send_broadcast msg :
  MessageType msg = BROADCAST → Send updateRoute msg = broadcastSend msg.
Proof.
  intros Hty. unfold Send. rewrite Hty.
  destruct (decide (BROADCAST = SET)) as [Heq|_]; [discriminate Heq|].
  by destruct (decide (BROADCAST = BROADCAST)).
Qed.

Lemma keeps_mesh_union m :
  (∀ k v me, m !! k = Some v → J me →
             J (<[k := compact (sort_Strings (row me k ++ v))]> me)) →
  (∀ k v me, J me → remove_all v (row me k) ≠ [] →
             J (<[k := remove_all v (row me k)]> me)) →
  keeps (on_mesh J) (union updateRoute m).
Proof.
  intros Hmerge Hins. unfold union.
  apply keeps_bind; [apply keeps_mesh_Lock|]. intros _.
  apply keeps_bind; [apply keeps_mesh_Lock|]. intros _.
  apply keeps_bind.
  { apply keeps_for_each. intros [k v] Hkv.
    apply keeps_modify. intros n h Hn. apply (Hmerge k v); [|done].
    rewrite range_perm in Hkv. by apply elem_of_map_to_list in Hkv. }
  intros _. apply keeps_get_node. intros p Hp.
  apply (keeps_bind (on_mesh J)); [| |done].
  - destruct (decide (size (intersection_mesh (node p)) ≠ 0)); [|apply keeps_ret].
    apply keeps_bind.
    { apply keeps_mesh_intersect_locked. intros k v me _. apply Hins. }
    intros _. apply keeps_bind; [apply keeps_mesh_broadcastID|]. intros id.
    rewrite Send_broadcast by done. apply keeps_mesh_broadcastSend.
  - intros _. apply keeps_bind; [apply keeps_mesh_Unlock|]. intros _.
    apply keeps_mesh_Unlock.
Qed.
End MeshPreservation.

(** ** The adjacency rows stay ordered *)

Lemma mesh_ordered_delete me k : mesh_ordered me → mesh_ordered (delete k me).
Proof.
  intros Hme k' l Hl. apply lookup_delete_Some in Hl as [_ Hl]. by apply (Hme k').
Qed.

Lemma mesh_ordered_insert me k l :
  mesh_ordered me → ordered l → mesh_ordered (<[k := l]> me).
Proof.
  intros Hme Hl k' l' Hl'. apply lookup_insert_Some in Hl' as [[_ <-]|[_ Hl']]; [done|].
  by apply (Hme k').
Qed.

Lemma row_ordered me k : mesh_ordered me → ordered (row me k).
Proof.
  intros Hme. unfold row. destruct (me !! k) as [l|] eqn:Hl; simpl.
  - by apply (Hme k).
  - apply ordered_nil.
Qed.

Section Ordered.
Context `{!MapRange}.
Variable updateRoute : string → Node → Node.

Lemma union_keeps_ordered m : keeps (on_mesh mesh_ordered) (union updateRoute m).
Proof.
  apply keeps_mesh_union.
  - apply mesh_ordered_delete.
  - intros k v me _ Hme. apply mesh_ordered_insert; [done|apply merged_row_ordered].
  - intros k v me Hme _. apply mesh_ordered_insert; [done|].
    by apply ordered_remove_all, row_ordered.
Qed.

Lemma intersect_keeps_ordered m : keeps (on_mesh mesh_ordered) (intersect m).
Proof.
  apply keeps_mesh_intersect.
  - apply mesh_ordered_delete.
  - intros k v me _ Hme _. apply mesh_ordered_insert; [done|].
    by apply ordered_remove_all, row_ordered.
Qed.

Lemma reachable_ordered n : reachable updateRoute n → mesh_ordered (mesh n).
Proof.
  induction 1 as [nm d|n n' _ IH Heq|n m q _ IH|n m q _ IH].
  - intros k l Hl. simpl in Hl. by rewrite lookup_empty in Hl.
  - by rewrite Heq.
  - by apply (union_keeps_ordered m (Proc n [] [] q)).
  - by apply (intersect_keeps_ordered m (Proc n [] [] q)).
Qed.

(** C1.  Wherever an application of [union] to a fragment [m] ends, on a
    node state a run can reach, every row of the adjacency map ascends
    and is free of duplicates. *)
Theorem union_rows_ordered n m q k l :
  reachable updateRoute n →
  mesh (node (final (call (union updateRoute m) n q))) !! k = Some l →
  Sorted String.le l ∧ NoDup l.
Proof.
  intros Hn Hl.
  apply (union_keeps_ordered m (Proc n [] [] q) (reachable_ordered n Hn) k l Hl).
Qed.
End Ordered.

(** ** Running a computation step by step *)

Lemma bind_Done {A B} (f : M A) (g : A → M B) p a p' :
  f p = Done a p' → (f ≫= g) p = g a p'.
Proof. intros Hf. unfold mbind, M_bind. by rewrite Hf. Qed.

Lemma bind_not_Done {A B} (f : M A) (g : A → M B) p :
  (∀ a p', f p = Done a p' → ∀ b p'', g a p' ≠ Done b p'') →
  ∀ b p'', (f ≫= g) p ≠ Done b p''.
Proof.
  intros Hf b p''. unfold mbind, M_bind.
  destruct (f p) as [a p'|p'|p'] eqn:Hfp; [by apply (Hf a p')|done..].
Qed.

Lemma bind_Done_inv {A B} (f : M A) (g : A → M B) p b p'' :
  (f ≫= g) p = Done b p'' → ∃ a p', f p = Done a p' ∧ g a p' = Done b p''.
Proof.
  unfold mbind, M_bind. destruct (f p) as [a p'|p'|p']; [eauto|done..].
Qed.

Lemma Lock_Done l p :
  l ∉ held p → Lock l p = Done () (Proc (node p) (l :: held p) (trace p) (ackChan p)).
Proof. intros Hl. unfold Lock. by destruct (decide (l ∈ held p)). Qed.

Lemma Lock_Stuck l p : l ∈ held p → Lock l p = Stuck p.
Proof. intros Hl. unfold Lock. by destruct (decide (l ∈ held p)). Qed.

Lemma Unlock_Done l p :
  l ∈ held p →
  Unlock l p = Done () (Proc (node p) (filter (λ l', l' ≠ l) (held p)) (trace p) (ackChan p)).
Proof. intros Hl. unfold Unlock. by destruct (decide (l ∈ held p)). Qed.

Lemma set_mesh_id n f : f (mesh n) = mesh n → set_mesh f n = n.
Proof. intros Hf. destruct n. unfold set_mesh; simpl in *. by rewrite Hf. Qed.

(** ** The merge loop of union *)

Lemma for_each_union_key kvs p :
  for_each kvs union_key p
  = Done () (Proc (set_mesh (merge_rows kvs) (node p)) (held p) (trace p) (ackChan p)).
Proof.
  revert p. induction kvs as [|kv kvs IH]; intros p; simpl.
  - destruct p as [[] ? ? ?]. reflexivity.
  - erewrite bind_Done by reflexivity. rewrite IH. reflexivity.
Qed.

Lemma merge_rows_other kvs me k :
  k ∉ kvs.*1 → merge_rows kvs me !! k = me !! k.
Proof.
  revert me. induction kvs as [|[k0 v0] kvs IH]; intros me Hk; [done|].
  rewrite fmap_cons, not_elem_of_cons in Hk. destruct Hk as [Hne Hk].
  unfold merge_rows in *. simpl. rewrite IH by done.
  by rewrite lookup_insert_ne.
Qed.

Lemma merge_rows_entry kvs me k v :
  NoDup kvs.*1 → (k, v) ∈ kvs →
  merge_rows kvs me !! k = Some (compact (sort_Strings (row me k ++ v))).
Proof.
  revert me. induction kvs as [|[k0 v0] kvs IH]; intros me Hnd Hin.
  - by apply elem_of_nil in Hin.
  - rewrite fmap_cons in Hnd. apply NoDup_cons in Hnd as [Hk0 Hnd].
    apply elem_of_cons in Hin as [Heq|Hin].
    + injection Heq as <- <-. unfold merge_rows. simpl.
      change (merge_rows kvs (<[k := compact (sort_Strings (row me k ++ v))]> me) !! k
              = Some (compact (sort_Strings (row me k ++ v)))).
      rewrite merge_rows_other by done. by rewrite lookup_insert_eq.
    + assert (k ≠ k0) as Hne.
      { intros ->. apply Hk0. apply list_elem_of_fmap. by exists (k0, v). }
      unfold merge_rows in *. simpl. rewrite IH by done.
      unfold row. by rewrite lookup_insert_ne.
Qed.

Section Merge.
Context `{!MapRange}.

Lemma range_NoDup_keys {V} (m : gmap string V) : NoDup (range m).*1.
Proof. rewrite range_perm. apply NoDup_fst_map_to_list. Qed.

Lemma elem_of_range {V} (m : gmap string V) k v : (k, v) ∈ range m ↔ m !! k = Some v.
Proof. rewrite range_perm. apply elem_of_map_to_list. Qed.

Lemma not_elem_of_range_keys {V} (m : gmap string V) k :
  k ∉ (range m).*1 ↔ m !! k = None.
Proof.
  rewrite list_elem_of_fmap. split.
  - intros Hk. destruct (m !! k) as [v|] eqn:Hv; [|done].
    exfalso. apply Hk. exists (k, v). split; [done|]. by apply elem_of_range.
  - intros Hnone [[k' v] [-> Hin]]. apply elem_of_range in Hin. simpl in *. congruence.
Qed.

(** The merge loop in closed form, whatever the order of iteration. *)
Lemma merge_rows_lookup m me k :
  merge_rows (range m) me !! k
  = match m !! k with
    | Some v => Some (compact (sort_Strings (row me k ++ v)))
    | None => me !! k
    end.
Proof.
  destruct (m !! k) as [v|] eqn:Hv.
  - apply merge_rows_entry; [apply range_NoDup_keys|by apply elem_of_range].
  - apply merge_rows_other. by apply not_elem_of_range_keys.
Qed.
End Merge.

(** Merging the same fragment again changes nothing, whatever the two
    orders of iteration. *)
Lemma merge_rows_idemp (R1 R2 : MapRange) m me :
  merge_rows (@range R2 _ m) (merge_rows (@range R1 _ m) me)
  = merge_rows (@range R1 _ m) me.
Proof.
  apply map_eq. intros k. rewrite (@merge_rows_lookup R2).
  destruct (m !! k) as [v|] eqn:Hv; [|done].
  unfold row at 1. rewrite !(@merge_rows_lookup R1), Hv. simpl.
  by rewrite merged_row_idemp.
Qed.

(** ** When union returns *)

Lemma conflict_step_fold_empty n l im :
  fold_left (conflict_step n) l im = ∅ ↔
  im = ∅ ∧ ∀ v, v ∈ l → is_Some (clients n !! v).
Proof.
  revert im. induction l as [|v l IH]; intros im; simpl.
  - split; [intros ->; split; [done|by intros ? ?%elem_of_nil] | by intros [-> _]].
  - rewrite IH. unfold conflict_step. destruct (clients n !! v) as [c|] eqn:Hc.
    + split.
      * intros [-> Hl]. split; [done|]. intros w [->|Hw]%elem_of_cons; eauto.
      * intros [-> Hl]. split; [done|]. intros w Hw. apply Hl. by right.
    + split.
      * intros [Hins _]. by apply insert_non_empty in Hins.
      * intros [_ Hl]. destruct (Hl v) as [c Hc']; [by left|]. congruence.
Qed.

(** The conflict check of [union] finds nothing exactly when every
    neighbour in this node's own row is in the registry. *)
Lemma intersection_mesh_empty n :
  size (intersection_mesh n) = 0 ↔
  ∀ v, v ∈ row (mesh n) (name n) → is_Some (clients n !! v).
Proof.
  rewrite map_size_empty_iff. unfold intersection_mesh.
  rewrite conflict_step_fold_empty. split; [by intros [_ Hl] | by intros Hl].
Qed.

Section UnionReturns.
Context `{!MapRange}.
Variable updateRoute : string → Node → Node.

Lemma keeps_clientLock_Unlock_sequenceLock :
  keeps holds_clientLock (Unlock sequenceLock).
Proof.
  apply keeps_Unlock. intros n h Hh. unfold holds_clientLock in *.
  apply list_elem_of_filter. split; [done|done].
Qed.

Lemma keeps_clientLock_intersect_locked im :
  keeps holds_clientLock (intersect_locked im).
Proof.
  unfold intersect_locked. apply keeps_bind.
  - apply keeps_fold_each. intros d kv _ p Hp.
    unfold intersect_key, holds_clientLock in *.
    unfold mbind, M_bind, get_node, modify, Lock; simpl.
    destruct (decide (length (remove_all kv.2 (row (mesh (node p)) kv.1)) = 0)); simpl;
      [|done].
    destruct (decide (sequenceLock ∈ held p)); simpl; [done|]. by right.
  - intros d. apply keeps_for_each. intros l Hl.
    destruct (proj1 (elem_of_replicate _ _ _) Hl) as [Heq _]. subst l.
    apply keeps_clientLock_Unlock_sequenceLock.
Qed.

Lemma keeps_clientLock_broadcastID : keeps holds_clientLock broadcastID.
Proof.
  unfold broadcastID.
  apply keeps_bind.
  { apply keeps_Lock. intros n h Hh. by right. }
  intros _. apply keeps_get_node. intros p Hp.
  apply (keeps_bind holds_clientLock); [by apply keeps_modify| |done].
  intros _. apply keeps_bind; [apply keeps_clientLock_Unlock_sequenceLock|].
  intros _. apply keeps_ret.
Qed.

Lemma broadcastSend_Stuck msg p :
  clientLock ∈ held p → broadcastSend msg p = Stuck p.
Proof.
  intros Hp. unfold broadcastSend, mbind, M_bind. by rewrite Lock_Stuck.
Qed.

(** Once [union] has found a conflict it cannot return: it still holds
    [clientLock] when [Send] comes to lock it in [broadcastSend]. *)
Lemma union_repair_not_Done im id_msg p :
  clientLock ∈ held p →
  (∀ i, MessageType (id_msg i) = BROADCAST) →
  ∀ b p'',
    (intersect_locked im ;; id ← broadcastID; Send updateRoute (id_msg id)) p
    ≠ Done b p''.
Proof.
  intros Hp Hty. apply bind_not_Done. intros [] p1 H1.
  pose proof (keeps_clientLock_intersect_locked im p Hp) as Hp1.
  rewrite H1 in Hp1. simpl in Hp1.
  apply bind_not_Done. intros i p2 H2.
  pose proof (keeps_clientLock_broadcastID p1 Hp1) as Hp2.
  rewrite H2 in Hp2. simpl in Hp2.
  intros b p''. rewrite Send_broadcast by apply Hty.
  by rewrite broadcastSend_Stuck.
Qed.

End UnionReturns.

Section UnionResult.
Context `{!MapRange}.
Variable updateRoute : string → Node → Node.

Lemma union_unfold m n q :
  call (union updateRoute m) n q
  = ((if decide (size (intersection_mesh (merged_node m n)) ≠ 0) then
        intersect_locked (intersection_mesh (merged_node m n));;
        id ← broadcastID;
        Send updateRoute
          (Msg BROADCAST [] (name (merged_node m n)) [name (merged_node m n)] id
               INTERSECTION (BodyMesh (intersection_mesh (merged_node m n))))
      else mret ());;
     Unlock clientLock;; Unlock meshLock)
      (Proc (merged_node m n) [clientLock; meshLock] [] q).
Proof.
  unfold call, union.
  erewrite bind_Done by (apply Lock_Done; simpl; apply not_elem_of_nil).
  erewrite bind_Done
    by (apply Lock_Done; simpl; by intros ?%list_elem_of_singleton).
  erewrite bind_Done by apply for_each_union_key.
  reflexivity.
Qed.

(** [union] returns when the merged own row lists registered peers only;
    the node then carries the merged adjacency map and nothing else has
    changed. *)
Lemma union_Done m n q :
  size (intersection_mesh (merged_node m n)) = 0 →
  call (union updateRoute m) n q = Done () (Proc (merged_node m n) [] [] q).
Proof.
  intros Hsz. rewrite union_unfold.
  destruct (decide (size (intersection_mesh (merged_node m n)) ≠ 0)); [done|].
  erewrite bind_Done by reflexivity.
  erewrite bind_Done by (apply Unlock_Done; simpl; by left).
  rewrite Unlock_Done by (vm_compute; by left).
  reflexivity.
Qed.

(** Otherwise it never returns. *)
Lemma union_not_Done m n q :
  size (intersection_mesh (merged_node m n)) ≠ 0 →
  ∀ b p, call (union updateRoute m) n q ≠ Done b p.
Proof.
  intros Hsz. rewrite union_unfold.
  destruct (decide (size (intersection_mesh (merged_node m n)) ≠ 0)); [|done].
  apply bind_not_Done. intros a p' Hrep. exfalso. revert Hrep.
  apply (union_repair_not_Done updateRoute _
           (λ id, Msg BROADCAST [] _ [_] id INTERSECTION _)).
  - simpl. by left.
  - done.
Qed.

Lemma union_Done_inv m n q b p :
  call (union updateRoute m) n q = Done b p →
  size (intersection_mesh (merged_node m n)) = 0 ∧ p = Proc (merged_node m n) [] [] q.
Proof.
  intros Hd.
  destruct (decide (size (intersection_mesh (merged_node m n)) = 0)) as [Hz|Hnz].
  - split; [done|]. rewrite union_Done in Hd by done. by injection Hd as _ <-.
  - by apply union_not_Done in Hd.
Qed.

(** [union] returns exactly when, after the merge, every neighbour in this
    node's own row is in the registry. *)
Lemma union_returns_iff m n q :
  (∃ p, call (union updateRoute m) n q = Done () p) ↔
  ∀ v, v ∈ row (mesh (merged_node m n)) (name n) → is_Some (clients n !! v).
Proof.
  rewrite <-(intersection_mesh_empty (merged_node m n)). split.
  - intros [p Hp]. by apply union_Done_inv in Hp as [Hsz _].
  - intros Hsz. eexists. by apply union_Done.
Qed.
End UnionResult.

(** C3.  When an application of [union] to a fragment [m] returns, applying
    [union] to [m] once more returns as well and leaves the adjacency map
    as the first application left it, whatever the orders in which the two
    applications iterate over [m]. *)
Theorem union_idempotent (R1 R2 : MapRange) (updateRoute : string → Node → Node)
    (m : adjacency) (n : Node) (q q' : list ack) (p1 : proc) :
  call (@union R1 updateRoute m) n q = Done () p1 →
  ∃ p2, call (@union R2 updateRoute m) (node p1) q' = Done () p2
        ∧ mesh (node p2) = mesh (node p1).
Proof.
  intros Hfirst. apply union_Done_inv in Hfirst as [Hsz ->]. simpl.
  assert (@merged_node R2 m (@merged_node R1 m n) = @merged_node R1 m n) as Heq.
  { unfold merged_node at 1. apply set_mesh_id.
    unfold merged_node. simpl. apply merge_rows_idemp. }
  exists (Proc (@merged_node R1 m n) [] [] q'). split; [|done].
  rewrite <-Heq at 2. apply union_Done. by rewrite Heq.
Qed.

(** ** Intersection with a single edge *)

Section IntersectOne.
Context `{!MapRange}.

Lemma range_singleton {V} k (x : V) : range ({[k := x]} : gmap string V) = [(k, x)].
Proof.
  apply Permutation_singleton_r. rewrite range_perm.
  by rewrite map_to_list_singleton.
Qed.

(** C2.  Intersection with [{k: [v]}] returns, and afterwards [v] is not
    in row [k]; when the removal leaves the row empty, [k] is absent from
    the adjacency map and from both sequence tables. *)
Theorem intersect_removes (n : Node) (k v : string) (q : list ack) :
  ∃ p, call (intersect {[k := [v]]}) n q = Done () p
       ∧ (v ∉ row (mesh (node p)) k)
       ∧ (remove_all [v] (row (mesh n) k) = [] →
          mesh (node p) !! k = None
          ∧ setSequences (node p) !! k = None
          ∧ broadcastSequences (node p) !! k = None).
Proof.
  unfold call, intersect, intersect_locked. rewrite range_singleton.
  unfold mbind, M_bind, Lock, get_node, modify; simpl.
  unfold intersect_key, mbind, M_bind, Lock, get_node, modify; simpl.
  destruct (decide (length (remove_all [v] (row (mesh n) k)) = 0)) as [Hz|Hnz]; simpl.
  - eexists. split; [reflexivity|]. simpl.
    unfold row at 1. rewrite !lookup_delete_eq. simpl.
    split; [apply not_elem_of_nil|done].
  - eexists. split; [reflexivity|]. simpl.
    unfold row at 1. rewrite lookup_insert_eq. simpl. split.
    + rewrite elem_of_remove_all. intros [_ Hv]. apply Hv. by left.
    + intros Hnil. by rewrite Hnil in Hnz.
Qed.
End IntersectOne.

(** ** The message router *)

Lemma split_recipient_run self m1 acc i p :
  split_recipient self m1 acc i p
  = Done (acc ++ filter (λ i, i ≠ self) [i])
         (Proc (node p) (held p)
               (trace p ++ ((λ _, EGoHandleMessage m1) <$> filter (λ i, i = self) [i]))
               (ackChan p)).
Proof.
  unfold split_recipient. destruct (decide (i = self)) as [->|Hne].
  - erewrite bind_Done by reflexivity.
    rewrite filter_cons_False by (intros Hn; by apply Hn).
    rewrite filter_cons_True by done. simpl. by rewrite app_nil_r.
  - rewrite filter_cons_True by done. rewrite filter_cons_False by done.
    simpl. rewrite app_nil_r. by destruct p.
Qed.

Lemma fold_each_split_recipient self m1 l acc p :
  fold_each (split_recipient self m1) l acc p
  = Done (acc ++ filter (λ i, i ≠ self) l)
         (Proc (node p) (held p)
               (trace p ++ ((λ _, EGoHandleMessage m1) <$> filter (λ i, i = self) l))
               (ackChan p)).
Proof.
  revert acc p. induction l as [|i l IH]; intros acc p.
  - simpl. rewrite !app_nil_r. by destruct p.
  - change (fold_each (split_recipient self m1) (i :: l) acc)
      with (split_recipient self m1 acc i ≫= fold_each (split_recipient self m1) l).
    erewrite bind_Done by apply split_recipient_run.
    rewrite IH. simpl node; simpl held; simpl trace; simpl ackChan.
    rewrite <-!app_assoc, <-fmap_app.
    change (i :: l) with ([i] ++ l). by rewrite !filter_app.
Qed.

Section Router.
Context `{!MapRange}.
Variable updateRoute : string → Node → Node.

(** A message whose id does not exceed the last one seen from its source
    leaves the whole process state as it was. *)
Lemma messageHandler_drop m p :
  MessageType m = SET ∨ MessageType m = BROADCAST →
  (ID m ≤ last_seen (node p) m)%N →
  messageHandler updateRoute m p = Done () p.
Proof.
  intros Hty Hid. unfold messageHandler, last_seen in *.
  erewrite bind_Done by reflexivity.
  destruct (decide (MessageType m = SET)) as [Hs|Hs].
  - destruct (decide (seq_of (setSequences (node p)) (Source m) < ID m)%N); [lia|done].
  - destruct Hty as [Hty|Hty]; [done|].
    destruct (decide (MessageType m = BROADCAST)); [|done].
    destruct (decide (seq_of (broadcastSequences (node p)) (Source m) < ID m)%N);
      [lia|done].
Qed.

(** C4.  The router drops an inbound SET or BROADCAST message whose id
    is at most the last one seen from its source, leaving sequence tables,
    adjacency map, routes and registry as they were and emitting nothing;
    a message with a greater id has its counter set to the id and is
    processed: a SET is forwarded through [setSend] after one handler per
    mention of this node, a BROADCAST is flooded and handled locally. *)
Theorem messageHandler_sequence (m : Message) (n : Node) (q : list ack) :
  MessageType m = SET ∨ MessageType m = BROADCAST →
  ((ID m ≤ last_seen n m)%N →
     call (messageHandler updateRoute m) n q = Done () (Proc n [] [] q))
  ∧ ((last_seen n m < ID m)%N →
     let m1 := with_route m (CurrentRoute m ++ [name n]) in
     (MessageType m = SET →
        call (messageHandler updateRoute m) n q
        = Done () (Proc (set_setSequences <[Source m := ID m]> n) []
                     (((λ _, EGoHandleMessage m1)
                         <$> filter (λ i, i = name n) (Recipients m))
                      ++ [EGoSetSend
                            (with_recipients m1
                               (filter (λ i, i ≠ name n) (Recipients m)))])
                     q))
     ∧ (MessageType m = BROADCAST →
        call (messageHandler updateRoute m) n q
        = handleMessage updateRoute m1
            (Proc (set_broadcastSequences <[Source m := ID m]> n) []
                  [EGoBroadcastSend m1] q))).
Proof.
  intros Hty. split.
  - intros Hid. by apply messageHandler_drop.
  - intros Hid m1. unfold last_seen in Hid. split; intros Hm.
    + unfold call, messageHandler.
      erewrite bind_Done by reflexivity. simpl.
      destruct (decide (MessageType m = SET)); [|done].
      destruct (decide (seq_of (setSequences n) (Source m) < ID m)%N); [|lia].
      erewrite bind_Done by (apply Lock_Done; simpl; apply not_elem_of_nil).
      erewrite bind_Done by reflexivity.
      erewrite bind_Done by (apply Unlock_Done; simpl; by left).
      erewrite bind_Done by apply fold_each_split_recipient.
      reflexivity.
    + unfold call, messageHandler.
      erewrite bind_Done by reflexivity. simpl.
      assert (MessageType m ≠ SET) as Hns by (rewrite Hm; discriminate).
      destruct (decide (MessageType m = SET)); [done|].
      destruct (decide (MessageType m = BROADCAST)); [|done].
      destruct (decide (seq_of (broadcastSequences n) (Source m) < ID m)%N); [|lia].
      erewrite bind_Done by (apply Lock_Done; simpl; apply not_elem_of_nil).
      erewrite bind_Done by reflexivity.
      erewrite bind_Done by (apply Unlock_Done; simpl; by left).
      erewrite bind_Done by reflexivity.
      reflexivity.
Qed.
End Router.

(** ** Hangup *)

Section HangupResult.
(** C10.  [Hangup] of a name that is not in the registry returns an error
    and changes nothing; [Hangup] of a registered name returns nil, having
    signalled the session's hangup channel. *)
Theorem Hangup_result (peer : string) (n : Node) (q : list ack) :
  (clients n !! peer = None →
     call (Hangup peer) n q = Done (Some "no such client") (Proc n [] [] q))
  ∧ (∀ c, clients n !! peer = Some c →
     call (Hangup peer) n q = Done None (Proc n [] [EHangup c] q)).
Proof.
  split.
  - intros Hnone. unfold call, Hangup.
    erewrite bind_Done by (apply Lock_Done; simpl; apply not_elem_of_nil).
    erewrite bind_Done by reflexivity. simpl. rewrite Hnone.
    erewrite bind_Done by (apply Unlock_Done; simpl; by left).
    reflexivity.
  - intros c Hc. unfold call, Hangup.
    erewrite bind_Done by (apply Lock_Done; simpl; apply not_elem_of_nil).
    erewrite bind_Done by reflexivity. simpl. rewrite Hc.
    erewrite bind_Done by reflexivity.
    erewrite bind_Done by (apply Unlock_Done; simpl; by left).
    reflexivity.
Qed.
End HangupResult.

(** ** The handshake *)

Section Handshake.
Context `{!MapRange}.
Variable updateRoute : string → Node → Node.

(** The dialing side refuses a peer that bears its own name. *)
Lemma dial_rejects_self c hs encoded solicited n q :
  Source hs = name n →
  call (dial updateRoute (inr c) (inr hs) encoded solicited) n q
  = Done (Some "connecting to myself is not allowed") (Proc n [] [EClose c] q).
Proof.
  intros Hsrc. unfold call, dial.
  erewrite bind_Done by reflexivity. simpl.
  destruct (decide (Source hs = name n)); [|done].
  erewrite bind_Done by reflexivity. reflexivity.
Qed.

(** The dialing side refuses a peer that is already in the registry. *)
Lemma dial_rejects_duplicate c hs encoded solicited n q :
  Source hs ≠ name n → is_Some (clients n !! Source hs) →
  call (dial updateRoute (inr c) (inr hs) encoded solicited) n q
  = Done (Some "already connected") (Proc n [] [EClose c] q).
Proof.
  intros Hsrc Hdup. unfold call, dial.
  erewrite bind_Done by reflexivity. simpl.
  destruct (decide (Source hs = name n)); [done|].
  destruct (decide (is_Some (clients n !! Source hs))); [|done].
  erewrite bind_Done by reflexivity. reflexivity.
Qed.

(** The accepting side installs whatever name the reply carries. *)
Lemma handleConnection_installs c hs n q :
  ∃ hello,
    call (handleConnection c None (inr hs)) n q
    = Done () (Proc (set_clients <[Source hs := Client c]> n) []
                    [EEncode c hello; EGoReceiveHandler (Source hs)] q).
Proof.
  eexists. unfold call, handleConnection.
  erewrite bind_Done by reflexivity. simpl.
  erewrite bind_Done by reflexivity.
  erewrite bind_Done by (apply Lock_Done; simpl; apply not_elem_of_nil).
  erewrite bind_Done by reflexivity.
  erewrite bind_Done by (apply Unlock_Done; simpl; by left).
  reflexivity.
Qed.
End Handshake.

(** C6.  On the accepting side a reply that bears the node's own name is
    not refused: [handleConnection] on node [a] returns without closing the
    socket or reporting an error, and the registry holds a session under
    [a]. *)
Theorem handleConnection_accepts_self :
  ∃ p, call (handleConnection 7 None (inr (reply_from "a"))) (NewNode "a" 1) []
       = Done () p
       ∧ clients (node p) !! "a" = Some (Client 7)
       ∧ (∀ e, e ∈ trace p → e ≠ EClose 7 ∧ ∀ err, e ≠ EError err).
Proof.
  eexists. split; [vm_compute; reflexivity|]. split; [vm_compute; reflexivity|].
  intros e He. simpl in He.
  apply elem_of_cons in He as [->|He]; [split; [done|by intros]|].
  apply list_elem_of_singleton in He as ->. split; [done|by intros].
Qed.

(** C7.  On the accepting side a reply that bears a name already in the
    registry is not refused: [handleConnection] on node [a], which holds a
    session to [b] on socket 1, replaces it by the new socket 2. *)
Theorem handleConnection_replaces_session :
  clients node_a_connected_to_b !! "b" = Some (Client 1)
  ∧ ∃ p, call (handleConnection 2 None (inr (reply_from "b"))) node_a_connected_to_b []
         = Done () p
         ∧ clients (node p) !! "b" = Some (Client 2)
         ∧ (∀ e, e ∈ trace p → e ≠ EClose 2 ∧ ∀ err, e ≠ EError err).
Proof.
  split; [vm_compute; reflexivity|].
  eexists. split; [vm_compute; reflexivity|]. split; [vm_compute; reflexivity|].
  intros e He. simpl in He.
  apply elem_of_cons in He as [->|He]; [split; [done|by intros]|].
  apply list_elem_of_singleton in He as ->. split; [done|by intros].
Qed.

(** ** What a returning intersection has done *)

Lemma intersect_key_Done d kv p d1 p1 :
  intersect_key d kv p = Done d1 p1 →
  (remove_all kv.2 (row (mesh (node p)) kv.1) = []
   ∧ node p1 = set_broadcastSequences (delete kv.1)
                 (set_setSequences (delete kv.1) (set_mesh (delete kv.1) (node p))))
  ∨ (remove_all kv.2 (row (mesh (node p)) kv.1) ≠ []
     ∧ node p1 = set_mesh <[kv.1 := remove_all kv.2 (row (mesh (node p)) kv.1)]> (node p)).
Proof.
  unfold intersect_key, mbind, M_bind, get_node, modify, Lock; simpl.
  destruct (decide (length (remove_all kv.2 (row (mesh (node p)) kv.1)) = 0))
    as [Hz|Hnz]; simpl.
  - destruct (decide (sequenceLock ∈ held p)); simpl; [done|].
    intros [= _ <-]. left. split; [by apply nil_length_inv|].
    simpl. unfold set_broadcastSequences, set_setSequences, set_mesh; simpl.
    by rewrite delete_insert_eq.
  - intros [= _ <-]. right. split; [|done].
    intros Hnil. by rewrite Hnil in Hnz.
Qed.

Lemma intersect_loop_Done kvs d p d' p' :
  NoDup kvs.*1 →
  fold_each intersect_key kvs d p = Done d' p' →
  (∀ k, k ∉ kvs.*1 →
        mesh (node p') !! k = mesh (node p) !! k
        ∧ setSequences (node p') !! k = setSequences (node p) !! k
        ∧ broadcastSequences (node p') !! k = broadcastSequences (node p) !! k)
  ∧ (∀ k v, (k, v) ∈ kvs →
        (remove_all v (row (mesh (node p)) k) = [] →
           mesh (node p') !! k = None
           ∧ setSequences (node p') !! k = None
           ∧ broadcastSequences (node p') !! k = None)
        ∧ (remove_all v (row (mesh (node p)) k) ≠ [] →
           mesh (node p') !! k = Some (remove_all v (row (mesh (node p)) k)))).
Proof.
  revert d p. induction kvs as [|[k0 v0] kvs IH]; intros d p Hnd Hrun.
  - simpl in Hrun. injection Hrun as _ <-. split; [done|].
    by intros k v ?%elem_of_nil.
  - rewrite fmap_cons in Hnd. apply NoDup_cons in Hnd as [Hk0 Hnd].
    change (fold_each intersect_key ((k0, v0) :: kvs) d)
      with (intersect_key d (k0, v0) ≫= fold_each intersect_key kvs) in Hrun.
    apply bind_Done_inv in Hrun as (d1 & p1 & Hstep & Hrest).
    destruct (IH d1 p1 Hnd Hrest) as [IHout IHin].
    apply intersect_key_Done in Hstep. simpl in Hstep.
    assert (∀ k, k ≠ k0 →
              mesh (node p1) !! k = mesh (node p) !! k
              ∧ setSequences (node p1) !! k = setSequences (node p) !! k
              ∧ broadcastSequences (node p1) !! k = broadcastSequences (node p) !! k)
      as Hother.
    { intros k Hne. destruct Hstep as [[_ ->]|[_ ->]]; simpl.
      - by rewrite !lookup_delete_ne.
      - by rewrite lookup_insert_ne. }
    split.
    + intros k Hk. rewrite fmap_cons, not_elem_of_cons in Hk. destruct Hk as [Hne Hk].
      destruct (IHout k Hk) as (-> & -> & ->). by apply Hother.
    + intros k v Hin. apply elem_of_cons in Hin as [Heq|Hin].
      * injection Heq as -> ->. destruct (IHout k0 Hk0) as (-> & -> & ->).
        destruct Hstep as [[Hnil ->]|[Hnn ->]]; simpl.
        -- rewrite !lookup_delete_eq. split; [done|]. by intros Hc.
        -- rewrite lookup_insert_eq. split; [by intros Hc|done].
      * assert (k ≠ k0) as Hne.
        { intros ->. apply Hk0. apply list_elem_of_fmap. by exists (k0, v). }
        destruct (Hother k Hne) as (Hme & _).
        assert (row (mesh (node p1)) k = row (mesh (node p)) k) as Hrow
          by (unfold row; by rewrite Hme).
        specialize (IHin k v Hin). by rewrite Hrow in IHin.
Qed.

Lemma for_each_Unlock_node l ls p r :
  for_each (replicate l ls) Unlock p = r → node (final r) = node p.
Proof.
  revert p r. induction l as [|l IH]; intros p r <-; simpl; [done|].
  unfold mbind, M_bind, Unlock at 1.
  destruct (decide (ls ∈ held p)); simpl; [|done].
  by erewrite IH by reflexivity.
Qed.

Section IntersectResult.
Context `{!MapRange}.

Lemma intersect_Done m n q b p :
  call (intersect m) n q = Done b p →
  ∀ k v, m !! k = Some v →
    (remove_all v (row (mesh n) k) = [] →
       mesh (node p) !! k = None
       ∧ setSequences (node p) !! k = None
       ∧ broadcastSequences (node p) !! k = None)
    ∧ (remove_all v (row (mesh n) k) ≠ [] →
       mesh (node p) !! k = Some (remove_all v (row (mesh n) k))).
Proof.
  unfold call, intersect, intersect_locked. intros Hrun k v Hkv.
  erewrite bind_Done in Hrun by (apply Lock_Done; simpl; apply not_elem_of_nil).
  apply bind_Done_inv in Hrun as ([] & p1 & Hlocked & Hunlock).
  apply bind_Done_inv in Hlocked as (d & p0 & Hloop & Hdefer).
  apply intersect_loop_Done in Hloop as [_ Hin]; [|apply range_NoDup_keys].
  specialize (Hin k v (proj2 (elem_of_range m k v) Hkv)). simpl in Hin.
  apply for_each_Unlock_node in Hdefer. simpl in Hdefer.
  assert (node p = node p1) as ->.
  { unfold Unlock in Hunlock. destruct (decide (meshLock ∈ held p1)); [|done].
    by injection Hunlock as _ <-. }
  by rewrite Hdefer.
Qed.
End IntersectResult.

(** ** Empty rows *)

Lemma no_empty_row_delete me k : no_empty_row me → no_empty_row (delete k me).
Proof.
  intros Hme k' l Hl. apply lookup_delete_Some in Hl as [_ Hl]. by apply (Hme k').
Qed.

Lemma no_empty_row_insert me k l :
  no_empty_row me → l ≠ [] → no_empty_row (<[k := l]> me).
Proof.
  intros Hme Hl k' l' Hl'. apply lookup_insert_Some in Hl' as [[_ <-]|[_ Hl']]; [done|].
  by apply (Hme k').
Qed.

Section EmptyRows.
Context `{!MapRange}.
Variable updateRoute : string → Node → Node.

(** C8, as amended.  On an adjacency map without empty rows, an
    intersection, and a union whose fragment has no empty list, leave no
    key with an empty row, wherever they end; and when an intersection
    returns, each key of its input whose row the removal emptied is absent
    from the adjacency map and from both sequence tables. *)
Theorem no_empty_row_kept (m : adjacency) (n : Node) (q : list ack) :
  no_empty_row (mesh n) →
  no_empty_row (mesh (node (final (call (intersect m) n q))))
  ∧ ((∀ k v, m !! k = Some v → v ≠ []) →
     no_empty_row (mesh (node (final (call (union updateRoute m) n q)))))
  ∧ (∀ p, call (intersect m) n q = Done () p →
       ∀ k v, m !! k = Some v → remove_all v (row (mesh n) k) = [] →
         mesh (node p) !! k = None
         ∧ setSequences (node p) !! k = None
         ∧ broadcastSequences (node p) !! k = None).
Proof.
  intros Hn. split; [|split].
  - apply (keeps_mesh_intersect no_empty_row no_empty_row_delete m); [|done].
    intros k v me _ Hme Hnv. by apply no_empty_row_insert.
  - intros Hm.
    apply (keeps_mesh_union updateRoute no_empty_row no_empty_row_delete m); [| |done].
    + intros k v me Hkv Hme. apply no_empty_row_insert; [done|].
      rewrite merged_row_nil. intros [_ Hv]%app_eq_nil. by apply (Hm k v).
    + intros k v me Hme Hnv. by apply no_empty_row_insert.
  - intros p Hrun k v Hkv Hnil.
    by apply (intersect_Done m n q () p Hrun k v Hkv).
Qed.
End EmptyRows.

(** C8, as stated, fails: [union] of the fragment [{b: []}] on a fresh node
    returns with key [b] present and bound to the empty list. *)
Lemma union_leaves_empty_row :
  ∃ p, call (@union canonical_range no_refresh {["b" := []]}) (NewNode "a" 1) []
       = Done () p
       ∧ mesh (node p) !! "b" = Some []
       ∧ ¬ no_empty_row (mesh (node p)).
Proof.
  eexists. split; [vm_compute; reflexivity|].
  split; [vm_compute; reflexivity|].
  intros Hne. by apply (Hne "b" []); [vm_compute|].
Qed.

(** ** Set send *)

Lemma string_app_nil_r (s : string) : s +:+ "" = s.
Proof.
  induction s as [|a s IH]; [done|].
  change (String a (s +:+ "") = String a s). by f_equal.
Qed.

Lemma string_app_assoc (s1 s2 s3 : string) : (s1 +:+ s2) +:+ s3 = s1 +:+ s2 +:+ s3.
Proof.
  induction s1 as [|a s1 IH]; [done|].
  change (String a ((s1 +:+ s2) +:+ s3) = String a (s1 +:+ s2 +:+ s3)). by f_equal.
Qed.

Lemma composite_Some s xs : composite (Some s) xs = Some (s +:+ more_names xs).
Proof.
  revert s. induction xs as [|y ys IH]; intros s.
  - cbn [composite fold_left more_names foldr]. f_equal. symmetry.
    apply string_app_nil_r.
  - change (composite (Some (s +:+ ", " +:+ y)) ys
            = Some (s +:+ ", " +:+ y +:+ more_names ys)).
    rewrite IH. by rewrite !string_app_assoc.
Qed.

(** The error names the failed recipients, in the order of their acks. *)
Lemma composite_names x xs :
  composite None (x :: xs) = Some ("failed to send to: " +:+ x +:+ more_names xs).
Proof.
  unfold composite. simpl.
  change (composite (Some ("failed to send to: " +:+ x)) xs
          = Some ("failed to send to: " +:+ x +:+ more_names xs)).
  rewrite composite_Some. by rewrite string_app_assoc.
Qed.

Lemma composite_None_iff xs : composite None xs = None ↔ xs = [].
Proof.
  split; [|by intros ->]. destruct xs as [|x xs]; [done|].
  by rewrite composite_names.
Qed.

Lemma failed_recipients_nil l :
  failed_recipients l = [] ↔ ∀ a, a ∈ l → Err a = None.
Proof.
  unfold failed_recipients. split.
  - intros Hf%fmap_nil_inv a Ha. destruct (Err a) as [e|] eqn:He; [|done].
    assert (a ∈ filter (λ a, Err a ≠ None) l) as Hin
      by (apply list_elem_of_filter; split; [congruence|done]).
    rewrite Hf in Hin. by apply elem_of_nil in Hin.
  - intros Hall. induction l as [|a l IH]; [done|].
    rewrite filter_cons_False.
    + apply IH. intros b Hb. apply Hall. by right.
    + intros Hne. apply Hne, Hall. by left.
Qed.

Lemma failed_recipients_cons_err a l e :
  Err a = Some e → failed_recipients (a :: l) = Recipient a :: failed_recipients l.
Proof.
  intros He. unfold failed_recipients. rewrite filter_cons_True by congruence. done.
Qed.

Lemma failed_recipients_cons_ok a l :
  Err a = None → failed_recipients (a :: l) = failed_recipients l.
Proof.
  intros He. unfold failed_recipients. rewrite filter_cons_False; [done|].
  intros Hne. by apply Hne.
Qed.

Lemma fold_each_app {A B} (f : B → A → M B) l1 l2 b p :
  fold_each f (l1 ++ l2) b p = (fold_each f l1 b ≫= fold_each f l2) p.
Proof.
  revert b p. induction l1 as [|x l1 IH]; intros b p; simpl; [done|].
  unfold mbind, M_bind.
  destruct (f b x p) as [b' p'|p'|p']; [|done..]. apply IH.
Qed.

Lemma composite_cons_err ret x xs :
  composite ret (x :: xs)
  = composite (Some match ret with
                    | None => "failed to send to: " +:+ x
                    | Some r => r +:+ ", " +:+ x
                    end) xs.
Proof. reflexivity. Qed.

Section SetSend.
Context `{!MapRange}.
Variable updateRoute : string → Node → Node.

Lemma await_Done (i : nat) (ret : error) (p : proc) :
  (i ≤ length (ackChan p))%nat →
  ∃ tr, await i ret p
        = Done (composite ret (failed_recipients (take i (ackChan p))))
               (Proc (node p) (held p) (trace p ++ tr) (drop i (ackChan p))).
Proof.
  revert ret p. induction i as [|i IH]; intros ret p Hlen.
  - exists []. simpl. rewrite app_nil_r, drop_0. by destruct p.
  - destruct p as [nd hl tr [|a rest]]; simpl in Hlen; [lia|].
    cbn [await]. erewrite bind_Done by reflexivity.
    cbn [node held trace ackChan take drop].
    destruct (Err a) as [e|] eqn:He.
    + erewrite bind_Done by reflexivity.
      cbn [node held trace ackChan].
      edestruct (IH (Some match ret with
                          | None => "failed to send to: " +:+ Recipient a
                          | Some r => r +:+ ", " +:+ Recipient a
                          end)
                    (Proc nd hl (tr ++ [EError e]) rest)) as [tr' Htr'];
        [simpl; lia|].
      exists (EError e :: tr'). rewrite Htr'. simpl.
      rewrite (failed_recipients_cons_err a _ e He), composite_cons_err.
      by rewrite <-app_assoc.
    + edestruct (IH ret (Proc nd hl tr rest)) as [tr' Htr']; [simpl; lia|].
      exists tr'. rewrite Htr'. simpl.
      by rewrite (failed_recipients_cons_ok a _ He).
Qed.

Lemma await_Stuck (i : nat) (ret : error) (p : proc) :
  (length (ackChan p) < i)%nat → ∃ p', await i ret p = Stuck p'.
Proof.
  revert ret p. induction i as [|i IH]; intros ret p Hlen; [lia|].
  destruct p as [nd hl tr [|a rest]]; simpl in Hlen.
  - eexists. reflexivity.
  - cbn [await]. erewrite bind_Done by reflexivity.
    destruct (Err a) as [e|].
    + erewrite bind_Done by reflexivity. apply IH. simpl. lia.
    + apply IH. simpl. lia.
Qed.

(** One recipient in the routing loop: the loop goes on, holding the
    same mutexes, and the ack channel gains a failed ack for [v] exactly
    when [v] has no route even after the refresh. *)
Lemma route_one_run sl v p :
  ∃ sl' p',
    route_one updateRoute sl v p = Done sl' p' ∧ held p' = held p
    ∧ ((routes (node p) !! v = None
        ∧ routes (updateRoute v (node p)) !! v = None
        ∧ ackChan p' = ackChan p ++ [Ack v (Some (no_route v))])
       ∨ ((is_Some (routes (node p) !! v)
           ∨ is_Some (routes (updateRoute v (node p)) !! v))
          ∧ ackChan p' = ackChan p)).
Proof.
  unfold route_one. erewrite bind_Done by reflexivity.
  destruct (routes (node p) !! v) as [r|] eqn:Hr.
  - do 2 eexists. split; [reflexivity|]. split; [done|]. right. eauto.
  - erewrite bind_Done by reflexivity. erewrite bind_Done by reflexivity.
    cbn [node]. destruct (routes (updateRoute v (node p)) !! v) as [r|] eqn:Hr'.
    + do 2 eexists. split; [reflexivity|]. split; [done|]. right. eauto.
    + erewrite bind_Done by reflexivity. erewrite bind_Done by reflexivity.
      do 2 eexists. split; [reflexivity|]. split; [done|]. left. done.
Qed.

Lemma route_all_run l sl p :
  ∃ sl' p' syn,
    fold_each (route_one updateRoute) l sl p = Done sl' p'
    ∧ held p' = held p
    ∧ ackChan p' = ackChan p ++ syn
    ∧ ∀ a, a ∈ syn → Err a ≠ None ∧ Recipient a ∈ l.
Proof.
  revert sl p. induction l as [|v l IH]; intros sl p.
  - exists sl, p, []. rewrite app_nil_r. split; [done|]. split; [done|].
    split; [done|]. intros a Ha. by apply elem_of_nil in Ha.
  - destruct (route_one_run sl v p) as (sl1 & p1 & Hstep & Hheld & Hack).
    destruct (IH sl1 p1) as (sl' & p' & syn & Hrest & Hheld' & Hack' & Hsyn).
    change (fold_each (route_one updateRoute) (v :: l) sl)
      with (route_one updateRoute sl v ≫= fold_each (route_one updateRoute) l).
    erewrite bind_Done by apply Hstep.
    destruct Hack as [(_ & _ & Hp1)|[_ Hp1]].
    + exists sl', p', (Ack v (Some (no_route v)) :: syn).
      split; [done|]. split; [congruence|]. split.
      { rewrite Hack', Hp1. by rewrite <-app_assoc. }
      intros a [->|Ha]%elem_of_cons; simpl.
      * split; [done|by left].
      * destruct (Hsyn a Ha). split; [done|by right].
    + exists sl', p', syn. split; [done|]. split; [congruence|].
      split; [congruence|].
      intros a Ha. destruct (Hsyn a Ha). split; [done|by right].
Qed.

Lemma send_slice_run msg kv p :
  ∃ e, send_slice msg kv p
       = Done () (Proc (node p) (held p) (trace p ++ [e]) (ackChan p)).
Proof.
  unfold send_slice. erewrite bind_Done by reflexivity.
  destruct (clients (node p) !! kv.1) as [c|]; eexists; reflexivity.
Qed.

Lemma send_slices_run msg kvs p :
  ∃ tr, for_each kvs (send_slice msg) p
        = Done () (Proc (node p) (held p) (trace p ++ tr) (ackChan p)).
Proof.
  revert p. induction kvs as [|kv kvs IH]; intros p.
  - exists []. simpl. rewrite app_nil_r. by destruct p.
  - destruct (send_slice_run msg kv p) as [e He].
    destruct (IH (Proc (node p) (held p) (trace p ++ [e]) (ackChan p)))
      as [tr Htr].
    exists (e :: tr). cbn [for_each]. erewrite bind_Done by apply He.
    rewrite Htr. simpl. by rewrite <-app_assoc.
Qed.
End SetSend.

Section SetSendAcks.
Context `{!MapRange}.
Variable updateRoute : string → Node → Node.

(** C5.  In a set send to the recipients of [m], the routing loop puts on
    the ack channel, behind what was there, one ack with a non-nil error
    for each recipient that has no route when it is examined, even after
    the route refresh, and nothing else; the call then takes exactly as
    many acks off the channel as there are recipients, blocking while
    fewer are available; it returns nil exactly when none of the acks
    taken carries an error, and otherwise the error that names the
    recipients of the failed acks. *)
Theorem setSend_acks (m : Message) (n : Node) (q : list ack) :
  let start := Proc n [clientLock; setLock] [] q in
  let count := length (Recipients m) in
  ∃ slices p1 syn,
    fold_each (route_one updateRoute) (Recipients m) ∅ start = Done slices p1
    ∧ ackChan p1 = q ++ syn
    ∧ (∀ a, a ∈ syn → Err a ≠ None ∧ Recipient a ∈ Recipients m)
    ∧ (∀ pre v post sl p0,
         Recipients m = pre ++ v :: post →
         fold_each (route_one updateRoute) pre ∅ start = Done sl p0 →
         routes (node p0) !! v = None →
         routes (updateRoute v (node p0)) !! v = None →
         Ack v (Some (no_route v)) ∈ syn)
    ∧ ((length (ackChan p1) < count)%nat →
         ∃ p, call (setSend updateRoute m) n q = Stuck p)
    ∧ ((count ≤ length (ackChan p1))%nat →
         let awaited := take count (ackChan p1) in
         ∃ p2, call (setSend updateRoute m) n q
               = Done (composite None (failed_recipients awaited)) p2
               ∧ ackChan p2 = drop count (ackChan p1)
               ∧ (composite None (failed_recipients awaited) = None
                  ↔ ∀ a, a ∈ awaited → Err a = None)
               ∧ (∀ x xs, failed_recipients awaited = x :: xs →
                    composite None (failed_recipients awaited)
                    = Some ("failed to send to: " +:+ x +:+ more_names xs))).
Proof.
  intros start count.
  destruct (route_all_run updateRoute (Recipients m) ∅ start)
    as (slices & p1 & syn & Hroute & Hheld & Hchan & Hsyn).
  exists slices, p1, syn. split; [done|]. split; [done|]. split; [done|].
  assert (∀ r, (await count None ≫= λ ret, Unlock setLock ;; mret ret)
                 (Proc (node p1) [setLock] r (ackChan p1))
               = match await count None (Proc (node p1) [setLock] r (ackChan p1)) with
                 | Done ret p => Done ret (Proc (node p) [] (trace p) (ackChan p))
                 | Stuck p => Stuck p
                 | Panic p => Panic p
                 end) as Htail.
  { intros r. unfold mbind at 1, M_bind at 1.
    destruct (await count None (Proc (node p1) [setLock] r (ackChan p1)))
      as [ret p|p|p] eqn:Hawait; [|done..].
    assert (held p = [setLock]) as Hhp.
    { destruct (decide (count ≤ length (ackChan p1))%nat) as [Hle|Hgt].
      - destruct (await_Done count None (Proc (node p1) [setLock] r (ackChan p1)) Hle)
          as [tr Htr]. rewrite Htr in Hawait. by injection Hawait as _ <-.
      - destruct (await_Stuck count None (Proc (node p1) [setLock] r (ackChan p1)))
          as [p' Hp']; [simpl; lia|]. congruence. }
    erewrite bind_Done by (apply Unlock_Done; rewrite Hhp; by left).
    rewrite Hhp. reflexivity. }
  assert (∃ r, call (setSend updateRoute m) n q
               = match await count None (Proc (node p1) [setLock] r (ackChan p1)) with
                 | Done ret p => Done ret (Proc (node p) [] (trace p) (ackChan p))
                 | Stuck p => Stuck p
                 | Panic p => Panic p
                 end) as [r Hcall].
  { destruct (send_slices_run m (range slices) p1) as [tr' Htr'].
    exists (trace p1 ++ tr'). unfold call, setSend.
    erewrite bind_Done by (apply Lock_Done; simpl; apply not_elem_of_nil).
    erewrite bind_Done
      by (apply Lock_Done; simpl; by intros ?%list_elem_of_singleton).
    erewrite bind_Done by apply Hroute.
    erewrite bind_Done by apply Htr'.
    erewrite bind_Done by (apply Unlock_Done; simpl; rewrite Hheld; by left).
    cbn [node held trace ackChan]. rewrite Hheld.
    apply Htail. }
  split; [|split].
  - intros pre v post sl p0 Hsplit Hpre Hr Hr'.
    destruct (route_all_run updateRoute pre ∅ start)
      as (sl0 & p0' & syn0 & Hpre' & _ & Hchan0 & _).
    rewrite Hpre in Hpre'. injection Hpre' as <- <-.
    destruct (route_one_run updateRoute sl v p0) as (sl1 & p1' & Hstep & _ & Hack).
    destruct Hack as [(_ & _ & Hchan1)|[[[? Hs]|[? Hs]] _]]; [|congruence..].
    destruct (route_all_run updateRoute post sl1 p1')
      as (sl2 & p2 & syn2 & Hpost & _ & Hchan2 & _).
    assert (fold_each (route_one updateRoute) (Recipients m) ∅ start = Done sl2 p2)
      as Hall.
    { rewrite Hsplit, fold_each_app. erewrite bind_Done by apply Hpre.
      change (fold_each (route_one updateRoute) (v :: post) sl)
        with (route_one updateRoute sl v ≫= fold_each (route_one updateRoute) post).
      by erewrite bind_Done by apply Hstep. }
    rewrite Hroute in Hall. injection Hall as -> ->.
    rewrite Hchan2, Hchan1, Hchan0 in Hchan. rewrite <-!app_assoc in Hchan.
    apply app_inv_head in Hchan. rewrite <-Hchan.
    apply elem_of_app. right. by left.
  - intros Hlt.
    destruct (await_Stuck count None (Proc (node p1) [setLock] r (ackChan p1)))
      as [p Hp]; [done|].
    exists p. by rewrite Hcall, Hp.
  - intros Hle awaited.
    destruct (await_Done count None (Proc (node p1) [setLock] r (ackChan p1)) Hle)
      as [tr Htr].
    eexists. split; [by rewrite Hcall, Htr|]. split; [done|]. split.
    + by rewrite composite_None_iff, failed_recipients_nil.
    + intros x xs ->. apply composite_names.
Qed.
End SetSendAcks.

(** ** Intersection with keys the adjacency map lacks *)

Section AbsentKeys.
Context `{!MapRange}.

(** When the intersection returns, a key of its input that the adjacency
    map lacks is still absent, and so are its two sequence entries. *)
Lemma intersect_absent_key m n q p k :
  call (intersect m) n q = Done () p →
  is_Some (m !! k) → mesh n !! k = None →
  mesh (node p) !! k = None
  ∧ setSequences (node p) !! k = None
  ∧ broadcastSequences (node p) !! k = None.
Proof.
  intros Hrun [v Hv] Hk.
  apply (intersect_Done m n q () p Hrun k v Hv).
  unfold row. rewrite Hk. by destruct v.
Qed.

(** C9.  With two keys that the adjacency map lacks, the intersection
    does not return: whatever the order of iteration it blocks on
    [sequenceLock] at the second key, whose entries stay in both
    sequence tables. *)
Theorem intersect_blocks_on_second_absent_key :
  mesh node_a_with_counters !! "b" = None
  ∧ mesh node_a_with_counters !! "c" = None
  ∧ ∃ p, call (intersect edges_b_c) node_a_with_counters [] = Stuck p
         ∧ ((setSequences (node p) !! "b" = Some 5%N
             ∧ broadcastSequences (node p) !! "b" = Some 5%N)
            ∨ (setSequences (node p) !! "c" = Some 7%N
               ∧ broadcastSequences (node p) !! "c" = Some 7%N)).
Proof.
  split; [done|]. split; [done|].
  assert (range edges_b_c = [("b", ["a"]); ("c", ["a"])]
          ∨ range edges_b_c = [("c", ["a"]); ("b", ["a"])]) as Horder.
  { apply Permutation_length_2_inv. rewrite range_perm.
    assert (map_to_list edges_b_c = [("c", ["a"]); ("b", ["a"])]) as ->
      by (vm_compute; reflexivity).
    apply perm_swap. }
  unfold call, intersect, intersect_locked.
  destruct Horder as [-> | ->]; eexists.
  - split; [vm_compute; reflexivity|]. right. split; vm_compute; reflexivity.
  - split; [vm_compute; reflexivity|]. left. split; vm_compute; reflexivity.
Qed.
End AbsentKeys.

(** ** The statements at concrete inputs *)

Lemma union_rows_ordered_witness :
  Sorted String.le ["b"; "c"] ∧ NoDup ["b"; "c"].
Proof.
  apply (@union_rows_ordered canonical_range no_refresh
           (NewNode "a" 1) fragment_x [] "x" ["b"; "c"]).
  - apply reach_new.
  - vm_compute. reflexivity.
Defined.

Lemma union_idempotent_witness :
  ∃ p2, call (@union canonical_range no_refresh fragment_x) node_a_after_x []
        = Done () p2
        ∧ mesh (node p2) = mesh node_a_after_x.
Proof.
  apply (union_idempotent canonical_range canonical_range no_refresh
           fragment_x (NewNode "a" 1) [] [] (Proc node_a_after_x [] [] [])).
  vm_compute. reflexivity.
Defined.

Lemma messageHandler_sequence_witness :
  (ID set_from_b ≤ last_seen node_a_with_counters set_from_b)%N
  ∧ call (@messageHandler canonical_range no_refresh set_from_b)
         node_a_with_counters []
    = Done () (Proc node_a_with_counters [] [] []).
Proof.
  assert (ID set_from_b ≤ last_seen node_a_with_counters set_from_b)%N as Hid
    by (vm_compute; discriminate).
  split; [exact Hid|].
  apply (@messageHandler_sequence canonical_range no_refresh
           set_from_b node_a_with_counters []); [left; reflexivity | exact Hid].
Defined.

Lemma setSend_acks_witness :
  ∃ p, call (@setSend canonical_range no_refresh set_to_z) (NewNode "a" 1) []
       = Done (Some "failed to send to: z") p.
Proof.
  destruct (@setSend_acks canonical_range no_refresh set_to_z (NewNode "a" 1) [])
    as (slices & p1 & syn & Hroute & _ & _ & _ & _ & Hdone).
  vm_compute in Hroute. injection Hroute as <- <-.
  destruct Hdone as (p2 & Hcall & _); [simpl; lia|].
  exists p2. exact Hcall.
Defined.

Lemma no_empty_row_kept_witness :
  no_empty_row (mesh (NewNode "a" 1))
  ∧ no_empty_row
      (mesh (node (final (call (@intersect canonical_range edges_b_c)
                               (NewNode "a" 1) [])))).
Proof.
  assert (no_empty_row (mesh (NewNode "a" 1))) as Hn.
  { intros k l Hl. simpl in Hl. by rewrite lookup_empty in Hl. }
  split; [exact Hn|].
  apply (@no_empty_row_kept canonical_range no_refresh edges_b_c
           (NewNode "a" 1) [] Hn).
Defined.

Lemma Hangup_result_witness :
  clients (NewNode "a" 1) !! "z" = None
  ∧ call (Hangup "z") (NewNode "a" 1) []
    = Done (Some "no such client") (Proc (NewNode "a" 1) [] [] []).
Proof.
  split; [reflexivity|].
  apply (proj1 (Hangup_result "z" (NewNode "a" 1) [])). reflexivity.
Defined.

(** ** When intersection returns *)

Lemma emptied_keys_agree me me' kvs :
  (∀ k, k ∈ kvs.*1 → me' !! k = me !! k) →
  emptied_keys me' kvs = emptied_keys me kvs.
Proof.
  unfold emptied_keys. induction kvs as [|[k v] kvs IH]; intros Hagree; [done|].
  rewrite !filter_cons. simpl.
  rewrite IH by (intros k' Hk'; apply Hagree; rewrite fmap_cons; by right).
  assert (row me' k = row me k) as Hrow.
  { unfold row. rewrite Hagree; [done|]. rewrite fmap_cons. by left. }
  destruct (decide (remove_all v (row me' k) = [])) as [H1|H1],
           (decide (remove_all v (row me k) = [])) as [H2|H2];
    try done; rewrite Hrow in H1; contradiction.
Qed.

Lemma intersect_key_kept d kv p :
  remove_all kv.2 (row (mesh (node p)) kv.1) ≠ [] →
  intersect_key d kv p
  = Done d (Proc (set_mesh <[kv.1 := remove_all kv.2 (row (mesh (node p)) kv.1)]> (node p))
                 (held p) (trace p) (ackChan p)).
Proof.
  intros Hnv. unfold intersect_key, mbind, M_bind, get_node, modify; simpl.
  destruct (decide (length (remove_all kv.2 (row (mesh (node p)) kv.1)) = 0)) as [Hz|_];
    [|done].
  by apply nil_length_inv in Hz.
Qed.

Lemma intersect_key_emptied d kv p :
  remove_all kv.2 (row (mesh (node p)) kv.1) = [] →
  sequenceLock ∉ held p →
  ∃ nd, intersect_key d kv p
        = Done (S d) (Proc nd (sequenceLock :: held p) (trace p) (ackChan p))
        ∧ ∀ k, k ≠ kv.1 → mesh nd !! k = mesh (node p) !! k.
Proof.
  intros Hnv Hfree. unfold intersect_key, mbind, M_bind, get_node, modify, Lock; simpl.
  rewrite Hnv. simpl.
  destruct (decide (sequenceLock ∈ held p)); [done|]. simpl.
  eexists. split; [reflexivity|]. intros k Hk. simpl.
  by rewrite lookup_delete_ne, lookup_insert_ne.
Qed.

Lemma intersect_key_blocked d kv p :
  remove_all kv.2 (row (mesh (node p)) kv.1) = [] →
  sequenceLock ∈ held p →
  ∃ nd, intersect_key d kv p = Stuck (Proc nd (held p) (trace p) (ackChan p)).
Proof.
  intros Hnv Hheld. unfold intersect_key, mbind, M_bind, get_node, modify, Lock; simpl.
  rewrite Hnv. simpl.
  destruct (decide (sequenceLock ∈ held p)); [|done]. eexists. reflexivity.
Qed.

(** The loop of [intersect_locked] once [sequenceLock] is taken: it runs to
    the end when no further row is emptied and blocks at the first that is. *)
Lemma intersect_loop_locked kvs d p :
  NoDup kvs.*1 → sequenceLock ∈ held p →
  ∃ p', held p' = held p
        ∧ fold_each intersect_key kvs d p
          = match emptied_keys (mesh (node p)) kvs with
            | [] => Done d p'
            | _ => Stuck p'
            end.
Proof.
  revert d p. induction kvs as [|[k0 v0] kvs IH]; intros d p Hnd Hheld.
  - exists p. by split.
  - rewrite fmap_cons in Hnd. apply NoDup_cons in Hnd as [Hk0 Hnd].
    change (fold_each intersect_key ((k0, v0) :: kvs) d)
      with (intersect_key d (k0, v0) ≫= fold_each intersect_key kvs).
    unfold emptied_keys. rewrite filter_cons. simpl.
    destruct (decide (remove_all v0 (row (mesh (node p)) k0) = [])) as [Hnv|Hnv].
    + destruct (intersect_key_blocked d (k0, v0) p Hnv Hheld) as [nd Hrun].
      eexists. split; [|unfold mbind, M_bind; by rewrite Hrun]. done.
    + erewrite bind_Done by (by apply (intersect_key_kept d (k0, v0))).
      simpl.
      destruct (IH d (Proc (set_mesh <[k0 := remove_all v0 (row (mesh (node p)) k0)]> (node p))
                        (held p) (trace p) (ackChan p)) Hnd Hheld) as (p' & Hh & Hrun).
      exists p'. split; [done|]. rewrite Hrun. simpl.
      rewrite (emptied_keys_agree (mesh (node p))); [done|].
      intros k Hk. apply lookup_insert_ne. by intros <-.
Qed.

(** The loop of [intersect_locked] from its start: one emptied row takes
    [sequenceLock], a second one blocks. *)
Lemma intersect_loop_free kvs d p :
  NoDup kvs.*1 → sequenceLock ∉ held p →
  ∃ p', fold_each intersect_key kvs d p
        = match emptied_keys (mesh (node p)) kvs with
          | [] => Done d p'
          | [_] => Done (S d) p'
          | _ => Stuck p'
          end
        ∧ held p' = match emptied_keys (mesh (node p)) kvs with
                    | [] => held p
                    | _ => sequenceLock :: held p
                    end.
Proof.
  revert d p. induction kvs as [|[k0 v0] kvs IH]; intros d p Hnd Hfree.
  - exists p. by split.
  - rewrite fmap_cons in Hnd. apply NoDup_cons in Hnd as [Hk0 Hnd].
    change (fold_each intersect_key ((k0, v0) :: kvs) d)
      with (intersect_key d (k0, v0) ≫= fold_each intersect_key kvs).
    unfold emptied_keys. rewrite filter_cons. simpl.
    destruct (decide (remove_all v0 (row (mesh (node p)) k0) = [])) as [Hnv|Hnv].
    + destruct (intersect_key_emptied d (k0, v0) p Hnv Hfree) as (nd & Hrun & Hnd').
      erewrite bind_Done by apply Hrun.
      destruct (intersect_loop_locked kvs (S d)
                  (Proc nd (sequenceLock :: held p) (trace p) (ackChan p)) Hnd)
        as (p' & Hh & Hloop); [by left|].
      exists p'. rewrite Hloop. simpl in *.
      rewrite (emptied_keys_agree (mesh (node p)) (mesh nd)).
      * unfold emptied_keys. by destruct (filter _ kvs).
      * intros k Hk. apply Hnd'. by intros ->.
    + erewrite bind_Done by (by apply (intersect_key_kept d (k0, v0))).
      simpl.
      destruct (IH d (Proc (set_mesh <[k0 := remove_all v0 (row (mesh (node p)) k0)]> (node p))
                        (held p) (trace p) (ackChan p)) Hnd Hfree) as (p' & Hrun & Hh).
      exists p'. simpl in *.
      rewrite (emptied_keys_agree (mesh (node p))) in Hrun, Hh; [done| |].
      * intros k Hk. apply lookup_insert_ne. by intros <-.
      * intros k Hk. apply lookup_insert_ne. by intros <-.
Qed.

Lemma filter_other_lock (l : lock) (h : list lock) :
  l ∉ h → filter (λ l', l' ≠ l) h = h.
Proof.
  induction h as [|x h IH]; intros Hl; [done|].
  apply not_elem_of_cons in Hl as [Hne Hl].
  rewrite filter_cons_True by done. by rewrite IH.
Qed.

Section IntersectReturns.
Context `{!MapRange}.

Lemma emptied_keys_range me m kv :
  kv ∈ emptied_keys me (range m) ↔
  m !! kv.1 = Some kv.2 ∧ remove_all kv.2 (row me kv.1) = [].
Proof.
  unfold emptied_keys. rewrite list_elem_of_filter. destruct kv as [k v]. simpl.
  rewrite elem_of_range. tauto.
Qed.

Lemma emptied_keys_NoDup me m : NoDup (emptied_keys me (range m)).*1.
Proof.
  unfold emptied_keys. eapply sublist_NoDup; [apply (range_NoDup_keys m)|].
  apply fmap_sublist, sublist_filter.
Qed.

Lemma emptied_keys_at_most_one me m :
  empties_at_most_one me m ↔
  emptied_keys me (range m) = [] ∨ ∃ kv, emptied_keys me (range m) = [kv].
Proof.
  split.
  - intros Hone. pose proof (emptied_keys_NoDup me m) as Hnd.
    destruct (emptied_keys me (range m)) as [|a [|b r]] eqn:Hek; eauto.
    exfalso. rewrite !fmap_cons in Hnd. apply NoDup_cons in Hnd as [Hab _].
    apply Hab. apply elem_of_cons. left.
    assert (a ∈ emptied_keys me (range m)) as [Ha1 Ha2]%emptied_keys_range
      by (rewrite Hek; by left).
    assert (b ∈ emptied_keys me (range m)) as [Hb1 Hb2]%emptied_keys_range
      by (rewrite Hek; right; by left).
    by apply (Hone a.1 a.2 b.1 b.2).
  - intros Hek k1 v1 k2 v2 Hm1 Hm2 He1 He2.
    assert ((k1, v1) ∈ emptied_keys me (range m)) as H1
      by (by apply emptied_keys_range).
    assert ((k2, v2) ∈ emptied_keys me (range m)) as H2
      by (by apply emptied_keys_range).
    destruct Hek as [Hek|[kv Hek]]; rewrite Hek in H1, H2.
    + by apply elem_of_nil in H1.
    + apply list_elem_of_singleton in H1, H2. congruence.
Qed.

(** [intersect_locked] started without [sequenceLock]: it returns, with
    the same mutexes held, when at most one row is emptied, and blocks
    holding [sequenceLock] otherwise. *)
Lemma intersect_locked_outcome m p :
  sequenceLock ∉ held p →
  (empties_at_most_one (mesh (node p)) m →
     ∃ p', intersect_locked m p = Done () p' ∧ held p' = held p)
  ∧ (¬ empties_at_most_one (mesh (node p)) m →
     ∃ p', intersect_locked m p = Stuck p' ∧ held p' = sequenceLock :: held p).
Proof.
  intros Hfree. unfold intersect_locked.
  destruct (intersect_loop_free (range m) 0 p (range_NoDup_keys m) Hfree)
    as (p' & Hloop & Hheld).
  rewrite emptied_keys_at_most_one.
  destruct (emptied_keys (mesh (node p)) (range m)) as [|a [|b r]] eqn:Hek.
  - split; [|intros Hn; exfalso; apply Hn; by left].
    intros _. exists p'. erewrite bind_Done by apply Hloop. by split.
  - split; [|intros Hn; exfalso; apply Hn; right; by exists a].
    intros _. erewrite bind_Done by apply Hloop. simpl.
    erewrite bind_Done by (apply Unlock_Done; rewrite Hheld; by left).
    eexists. split; [reflexivity|]. simpl. rewrite Hheld.
    rewrite filter_cons_False by (intros Hn; by apply Hn).
    by apply filter_other_lock.
  - split; [intros [Hnil|[kv Hkv]]; congruence|].
    intros _. exists p'. split; [|done].
    unfold mbind, M_bind. by rewrite Hloop.
Qed.

Lemma intersect_outcome (m : adjacency) (n : Node) (q : list ack) :
  ((∃ p, call (intersect m) n q = Done () p) ↔ empties_at_most_one (mesh n) m)
  ∧ (¬ empties_at_most_one (mesh n) m →
     ∃ p, call (intersect m) n q = Stuck p
          ∧ meshLock ∈ held p ∧ sequenceLock ∈ held p).
Proof.
  unfold call, intersect.
  erewrite bind_Done by (apply Lock_Done; simpl; apply not_elem_of_nil).
  destruct (intersect_locked_outcome m (Proc n [meshLock] [] q)) as [Hret Hblock].
  { simpl. by intros ?%list_elem_of_singleton. }
  simpl in Hret, Hblock.
  assert (¬ empties_at_most_one (mesh n) m →
          ∃ p, (intersect_locked m ≫= λ _ : (), Unlock meshLock)
                 (Proc n [meshLock] [] q) = Stuck p
               ∧ meshLock ∈ held p ∧ sequenceLock ∈ held p) as Hstuck.
  { intros Hn. destruct (Hblock Hn) as (p' & Hrun & Hheld).
    exists p'. unfold mbind, M_bind. rewrite Hrun. split; [done|].
    rewrite Hheld. split; [right|]; by left. }
  split; [|done]. split.
  - intros [p Hp].
    destruct (emptied_keys_at_most_one (mesh n) m) as [_ Hback].
    destruct (emptied_keys (mesh n) (range m)) as [|a [|b r]] eqn:Hek;
      [apply Hback; by left | apply Hback; right; by exists a |].
    exfalso. destruct Hstuck as (p' & Hrun & _); [|simpl in Hp; congruence].
    rewrite emptied_keys_at_most_one, Hek. intros [Hnil|[kv Hkv]]; congruence.
  - intros Hone. destruct (Hret Hone) as (p' & Hrun & Hheld).
    erewrite bind_Done by apply Hrun.
    eexists. apply Unlock_Done. rewrite Hheld. by left.
Qed.

(** X1.  An intersection returns exactly when the removal empties the row
    of at most one key of its input; otherwise it blocks for ever at the
    second such key, holding [meshLock] and [sequenceLock]. *)
Theorem intersect_returns_iff (m : adjacency) (n : Node) (q : list ack) :
  ((∃ p, call (intersect m) n q = Done () p) ↔ empties_at_most_one (mesh n) m)
  ∧ (¬ empties_at_most_one (mesh n) m →
     ∃ p, call (intersect m) n q = Stuck p
          ∧ meshLock ∈ held p ∧ sequenceLock ∈ held p).
Proof. apply intersect_outcome. Qed.
End IntersectReturns.

(** ** What intersection leaves alone *)

Section IntersectFrame.
Context `{!MapRange}.

Lemma intersect_key_keeps_other d kv k a b c :
  kv.1 ≠ k →
  keeps (λ n _, mesh n !! k = a ∧ setSequences n !! k = b
                ∧ broadcastSequences n !! k = c)
        (intersect_key d kv).
Proof.
  intros Hne p (Ha & Hb & Hc).
  unfold intersect_key, mbind, M_bind, get_node, modify, Lock; simpl.
  destruct (decide (length (remove_all kv.2 (row (mesh (node p)) kv.1)) = 0)); simpl.
  - destruct (decide (sequenceLock ∈ held p)); simpl;
      rewrite ?lookup_delete_ne, ?lookup_insert_ne by done; done.
  - by rewrite lookup_insert_ne.
Qed.

Lemma intersect_key_keeps_fields d kv nm dg rt cl :
  keeps (λ n _, name n = nm ∧ degree n = dg ∧ routes n = rt ∧ clients n = cl)
        (intersect_key d kv).
Proof.
  intros p Hp.
  unfold intersect_key, mbind, M_bind, get_node, modify, Lock; simpl.
  destruct (decide (length (remove_all kv.2 (row (mesh (node p)) kv.1)) = 0)); simpl;
    [|done].
  by destruct (decide (sequenceLock ∈ held p)).
Qed.

Lemma intersect_keeps Q m :
  (∀ d kv, kv ∈ range m → keeps Q (intersect_key d kv)) →
  (∀ n h l, Q n h → Q n (l :: h)) →
  (∀ n h l, Q n h → Q n (filter (λ l', l' ≠ l) h)) →
  keeps Q (intersect m).
Proof.
  intros Hkey Hlock Hunlock. unfold intersect, intersect_locked.
  apply keeps_bind; [apply keeps_Lock; intros; by apply Hlock|]. intros _.
  apply keeps_bind.
  - apply keeps_bind; [by apply keeps_fold_each|].
    intros d. apply keeps_for_each. intros l _.
    apply keeps_Unlock. intros. by apply Hunlock.
  - intros _. apply keeps_Unlock. intros. by apply Hunlock.
Qed.

Lemma intersect_untouched (m : adjacency) (n : Node) (q : list ack) (k : string) :
  m !! k = None →
  let n' := node (final (call (intersect m) n q)) in
  mesh n' !! k = mesh n !! k
  ∧ setSequences n' !! k = setSequences n !! k
  ∧ broadcastSequences n' !! k = broadcastSequences n !! k
  ∧ name n' = name n ∧ degree n' = degree n
  ∧ routes n' = routes n ∧ clients n' = clients n.
Proof.
  intros Hk n'.
  assert (mesh n' !! k = mesh n !! k
          ∧ setSequences n' !! k = setSequences n !! k
          ∧ broadcastSequences n' !! k = broadcastSequences n !! k) as (-> & -> & ->).
  { apply (intersect_keeps
             (λ n0 _, mesh n0 !! k = mesh n !! k
                      ∧ setSequences n0 !! k = setSequences n !! k
                      ∧ broadcastSequences n0 !! k = broadcastSequences n !! k)
             m); [|done|done|done].
    intros d [k0 v0] Hin. apply intersect_key_keeps_other. simpl.
    intros ->. apply elem_of_range in Hin. congruence. }
  assert (name n' = name n ∧ degree n' = degree n
          ∧ routes n' = routes n ∧ clients n' = clients n) as (-> & -> & -> & ->).
  { apply (intersect_keeps
             (λ n0 _, name n0 = name n ∧ degree n0 = degree n
                      ∧ routes n0 = routes n ∧ clients n0 = clients n)
             m); [|done|done|done].
    intros d kv _. apply intersect_key_keeps_fields. }
  done.
Qed.

(** X2.  Wherever an intersection ends, a key that is not in its input
    keeps its row and its two sequence entries, and the node's name,
    degree, routes and registry are as before. *)
Theorem intersect_frame (m : adjacency) (n : Node) (q : list ack) (k : string) :
  m !! k = None →
  let n' := node (final (call (intersect m) n q)) in
  mesh n' !! k = mesh n !! k
  ∧ setSequences n' !! k = setSequences n !! k
  ∧ broadcastSequences n' !! k = broadcastSequences n !! k
  ∧ name n' = name n ∧ degree n' = degree n
  ∧ routes n' = routes n ∧ clients n' = clients n.
Proof. apply intersect_untouched. Qed.
End IntersectFrame.

(** ** Intersection twice *)

Lemma Node_eq (n1 n2 : Node) :
  name n1 = name n2 → degree n1 = degree n2 → mesh n1 = mesh n2 →
  setSequences n1 = setSequences n2 →
  broadcastSequences n1 = broadcastSequences n2 →
  routes n1 = routes n2 → clients n1 = clients n2 → n1 = n2.
Proof. destruct n1, n2. simpl. by intros -> -> -> -> -> -> ->. Qed.

Lemma intersect_loop_counters kvs d p d' p' :
  NoDup kvs.*1 →
  fold_each intersect_key kvs d p = Done d' p' →
  ∀ k v, (k, v) ∈ kvs → remove_all v (row (mesh (node p)) k) ≠ [] →
    setSequences (node p') !! k = setSequences (node p) !! k
    ∧ broadcastSequences (node p') !! k = broadcastSequences (node p) !! k.
Proof.
  revert d p. induction kvs as [|[k0 v0] kvs IH]; intros d p Hnd Hrun k v Hin Hnv.
  - by apply elem_of_nil in Hin.
  - rewrite fmap_cons in Hnd. apply NoDup_cons in Hnd as [Hk0 Hnd].
    change (fold_each intersect_key ((k0, v0) :: kvs) d)
      with (intersect_key d (k0, v0) ≫= fold_each intersect_key kvs) in Hrun.
    apply bind_Done_inv in Hrun as (d1 & p1 & Hstep & Hrest).
    destruct (intersect_loop_Done kvs d1 p1 d' p' Hnd Hrest) as [Hout _].
    apply intersect_key_Done in Hstep. simpl in Hstep.
    apply elem_of_cons in Hin as [Heq|Hin].
    + injection Heq as -> ->. destruct (Hout k0 Hk0) as (_ & -> & ->).
      destruct Hstep as [[Hnil _]|[_ ->]]; [done|]. done.
    + assert (k ≠ k0) as Hne.
      { intros ->. apply Hk0. apply list_elem_of_fmap. by exists (k0, v). }
      assert (mesh (node p1) !! k = mesh (node p) !! k
              ∧ setSequences (node p1) !! k = setSequences (node p) !! k
              ∧ broadcastSequences (node p1) !! k = broadcastSequences (node p) !! k)
        as (Hme & Hse & Hbr).
      { destruct Hstep as [[_ ->]|[_ ->]]; simpl.
        - by rewrite !lookup_delete_ne.
        - by rewrite lookup_insert_ne. }
      rewrite <-Hse, <-Hbr. apply (IH d1 p1 Hnd Hrest k v Hin).
      unfold row in *. by rewrite Hme.
Qed.

Section IntersectTwice.
Context `{!MapRange}.

(** Wherever an intersection ends, it has touched neither the name, the
    degree, the routes nor the registry. *)
Lemma intersect_fields m n q :
  name (node (final (call (intersect m) n q))) = name n
  ∧ degree (node (final (call (intersect m) n q))) = degree n
  ∧ routes (node (final (call (intersect m) n q))) = routes n
  ∧ clients (node (final (call (intersect m) n q))) = clients n.
Proof.
  apply (intersect_keeps
           (λ n0 _, name n0 = name n ∧ degree n0 = degree n
                    ∧ routes n0 = routes n ∧ clients n0 = clients n)
           m); [|done|done|done].
  intros d kv _. apply intersect_key_keeps_fields.
Qed.

Lemma intersect_Done_counters m n q b p :
  call (intersect m) n q = Done b p →
  ∀ k v, m !! k = Some v → remove_all v (row (mesh n) k) ≠ [] →
    setSequences (node p) !! k = setSequences n !! k
    ∧ broadcastSequences (node p) !! k = broadcastSequences n !! k.
Proof.
  unfold call, intersect, intersect_locked. intros Hrun k v Hkv Hnv.
  erewrite bind_Done in Hrun by (apply Lock_Done; simpl; apply not_elem_of_nil).
  apply bind_Done_inv in Hrun as ([] & p1 & Hlocked & Hunlock).
  apply bind_Done_inv in Hlocked as (d & p0 & Hloop & Hdefer).
  pose proof (intersect_loop_counters _ _ _ _ _ (range_NoDup_keys m) Hloop k v
                (proj2 (elem_of_range m k v) Hkv) Hnv) as Hin.
  simpl in Hin.
  apply for_each_Unlock_node in Hdefer. simpl in Hdefer.
  assert (node p = node p1) as ->.
  { unfold Unlock in Hunlock. destruct (decide (meshLock ∈ held p1)); [|done].
    by injection Hunlock as _ <-. }
  by rewrite Hdefer.
Qed.

(** X3.  When an intersection returns, the same intersection applied to
    the resulting node returns as well and changes nothing. *)
Theorem intersect_idempotent (m : adjacency) (n : Node) (q q' : list ack) (p : proc) :
  call (intersect m) n q = Done () p →
  ∃ p', call (intersect m) (node p) q' = Done () p' ∧ node p' = node p.
Proof.
  intros Hfirst.
  assert (∀ k v, m !! k = Some v →
            (remove_all v (row (mesh (node p)) k) = []
             ↔ remove_all v (row (mesh n) k) = [])) as Hsame.
  { intros k v Hkv. destruct (intersect_Done m n q () p Hfirst k v Hkv) as [He Hn].
    destruct (decide (remove_all v (row (mesh n) k) = [])) as [Hnil|Hnn].
    - destruct (He Hnil) as (Hme & _). unfold row at 1. rewrite Hme. simpl.
      split; [done|]. intros _. by destruct v.
    - specialize (Hn Hnn). unfold row at 1. rewrite Hn. simpl.
      rewrite remove_all_idemp. done. }
  assert (empties_at_most_one (mesh (node p)) m) as Hone.
  { assert (empties_at_most_one (mesh n) m) as Hone
      by (apply (intersect_outcome m n q); eauto).
    intros k1 v1 k2 v2 H1 H2 He1 He2. apply (Hone k1 v1 k2 v2); [done..| |].
    - by apply (Hsame k1 v1).
    - by apply (Hsame k2 v2). }
  apply (intersect_outcome m (node p) q') in Hone as [p' Hsecond].
  exists p'. split; [done|].
  pose proof (intersect_untouched m (node p) q') as Hf2.
  rewrite Hsecond in Hf2. simpl in Hf2.
  assert (∀ k, mesh (node p') !! k = mesh (node p) !! k
               ∧ setSequences (node p') !! k = setSequences (node p) !! k
               ∧ broadcastSequences (node p') !! k = broadcastSequences (node p) !! k)
    as Hkeys.
  { intros k. destruct (m !! k) as [v|] eqn:Hkv.
    - destruct (intersect_Done m n q () p Hfirst k v Hkv) as [He1 Hn1].
      destruct (intersect_Done m (node p) q' () p' Hsecond k v Hkv) as [He2 Hn2].
      destruct (decide (remove_all v (row (mesh n) k) = [])) as [Hnil|Hnn].
      + destruct (He1 Hnil) as (-> & -> & ->).
        destruct (He2 (proj2 (Hsame k v Hkv) Hnil)) as (-> & -> & ->). done.
      + assert (remove_all v (row (mesh (node p)) k) ≠ []) as Hnn'
          by (by rewrite (Hsame k v Hkv)).
        destruct (intersect_Done_counters m (node p) q' () p' Hsecond k v Hkv Hnn')
          as [-> ->].
        rewrite (Hn2 Hnn'). split; [|done].
        rewrite (Hn1 Hnn). unfold row at 1. rewrite (Hn1 Hnn). simpl.
        by rewrite remove_all_idemp.
    - destruct (Hf2 k Hkv) as (H1 & H2 & H3 & _). done. }
  destruct (intersect_fields m (node p) q') as (Hnm & Hdg & Hrt & Hcl).
  rewrite Hsecond in Hnm, Hdg, Hrt, Hcl. simpl in Hnm, Hdg, Hrt, Hcl.
  apply Node_eq; try done; apply map_eq; intros k; apply Hkeys.
Qed.
End IntersectTwice.

(** ** Operations that emit nothing *)

Lemma silent_ret {A} (a : A) : silent (mret a).
Proof. by intros p. Qed.

Lemma silent_bind {A B} (f : M A) (g : A → M B) :
  silent f → (∀ a, silent (g a)) → silent (f ≫= g).
Proof.
  intros Hf Hg p. specialize (Hf p). unfold mbind, M_bind.
  destruct (f p) as [a p'|p'|p']; simpl in *; [|done..].
  destruct (Hg a p') as [-> ->]. done.
Qed.

Lemma silent_get_node : silent get_node.
Proof. by intros p. Qed.

Lemma silent_modify g : silent (modify g).
Proof. by intros p. Qed.

Lemma silent_Lock l : silent (Lock l).
Proof. intros p. unfold Lock. by destruct (decide (l ∈ held p)). Qed.

Lemma silent_Unlock l : silent (Unlock l).
Proof. intros p. unfold Unlock. by destruct (decide (l ∈ held p)). Qed.

Lemma silent_for_each {A} (l : list A) (f : A → M unit) :
  (∀ x, silent (f x)) → silent (for_each l f).
Proof.
  intros Hf. induction l as [|x l IH]; simpl; [apply silent_ret|].
  apply silent_bind; [apply Hf|]. by intros _.
Qed.

Lemma silent_fold_each {A B} (f : B → A → M B) (l : list A) (b : B) :
  (∀ b x, silent (f b x)) → silent (fold_each f l b).
Proof.
  intros Hf. revert b. induction l as [|x l IH]; intros b; simpl; [apply silent_ret|].
  apply silent_bind; [apply Hf|]. intros b'. apply IH.
Qed.

Lemma silent_intersect_key d kv : silent (intersect_key d kv).
Proof.
  unfold intersect_key. apply silent_bind; [apply silent_get_node|]. intros n.
  apply silent_bind; [apply silent_modify|]. intros _.
  destruct (decide (length (remove_all kv.2 (row (mesh n) kv.1)) = 0));
    [|apply silent_ret].
  apply silent_bind; [apply silent_modify|]. intros _.
  apply silent_bind; [apply silent_Lock|]. intros _.
  apply silent_bind; [apply silent_modify|]. intros _.
  apply silent_bind; [apply silent_modify|]. intros _. apply silent_ret.
Qed.

Lemma silent_broadcastID : silent broadcastID.
Proof.
  unfold broadcastID. apply silent_bind; [apply silent_Lock|]. intros _.
  apply silent_bind; [apply silent_get_node|]. intros n.
  apply silent_bind; [apply silent_modify|]. intros _.
  apply silent_bind; [apply silent_Unlock|]. intros _. apply silent_ret.
Qed.

Section Silent.
Context `{!MapRange}.

Lemma silent_intersect_locked m : silent (intersect_locked m).
Proof.
  unfold intersect_locked. apply silent_bind.
  - apply silent_fold_each. intros d kv. apply silent_intersect_key.
  - intros d. apply silent_for_each. intros l. apply silent_Unlock.
Qed.

Lemma silent_intersect m : silent (intersect m).
Proof.
  unfold intersect. apply silent_bind; [apply silent_Lock|]. intros _.
  apply silent_bind; [apply silent_intersect_locked|]. intros _.
  apply silent_Unlock.
Qed.
End Silent.

(** ** What union does when it returns, and when it does not *)

Lemma broadcastID_run p :
  sequenceLock ∉ held p →
  broadcastID p
  = Done (seq_of (broadcastSequences (node p)) (name (node p)))
         (Proc (set_broadcastSequences
                  <[name (node p) :=
                      incr64 (seq_of (broadcastSequences (node p)) (name (node p)))]>
                  (node p))
               (held p) (trace p) (ackChan p)).
Proof.
  intros Hfree. unfold broadcastID.
  erewrite bind_Done by (by apply Lock_Done).
  erewrite bind_Done by reflexivity. simpl.
  erewrite bind_Done by reflexivity.
  erewrite bind_Done by (apply Unlock_Done; simpl; by left).
  simpl. rewrite filter_cons_False by (intros Hn; by apply Hn).
  by rewrite filter_other_lock.
Qed.

Lemma setID_run p :
  sequenceLock ∉ held p →
  setID p
  = Done (seq_of (setSequences (node p)) (name (node p)))
         (Proc (set_setSequences
                  <[name (node p) :=
                      incr64 (seq_of (setSequences (node p)) (name (node p)))]>
                  (node p))
               (held p) (trace p) (ackChan p)).
Proof.
  intros Hfree. unfold setID.
  erewrite bind_Done by (by apply Lock_Done).
  erewrite bind_Done by reflexivity. simpl.
  erewrite bind_Done by reflexivity.
  erewrite bind_Done by (apply Unlock_Done; simpl; by left).
  simpl. rewrite filter_cons_False by (intros Hn; by apply Hn).
  by rewrite filter_other_lock.
Qed.

Section UnionOutcome.
Context `{!MapRange}.
Variable updateRoute : string → Node → Node.

Lemma elem_of_merged_row_at m n k x :
  x ∈ row (mesh (merged_node m n)) k ↔
  x ∈ row (mesh n) k ∨ ∃ v, m !! k = Some v ∧ x ∈ v.
Proof.
  unfold merged_node, row at 1. simpl. rewrite merge_rows_lookup.
  destruct (m !! k) as [v|] eqn:Hv; simpl.
  - rewrite elem_of_merged_row, elem_of_app. split.
    + intros [Hx|Hx]; [by left | right; by exists v].
    + intros [Hx|(v' & [= <-] & Hx)]; [by left | by right].
  - split; [by left|]. by intros [Hx|(v' & ? & _)].
Qed.

(** X4.  A union that returns has changed the adjacency map only: each
    row named by the fragment now holds, in ascending order and without
    repetition, what it held before together with the fragment's list; all
    other rows are as before; nothing was sent; and every neighbour in the
    node's own row is in the registry. *)
Theorem union_result (m : adjacency) (n : Node) (q : list ack) (p : proc) :
  call (union updateRoute m) n q = Done () p →
  (∀ k v, m !! k = Some v →
     ∃ l, mesh (node p) !! k = Some l
          ∧ Sorted String.le l ∧ NoDup l
          ∧ ∀ x, x ∈ l ↔ x ∈ row (mesh n) k ∨ x ∈ v)
  ∧ (∀ k, m !! k = None → mesh (node p) !! k = mesh n !! k)
  ∧ (∀ v, v ∈ row (mesh (node p)) (name n) → is_Some (clients n !! v))
  ∧ name (node p) = name n ∧ degree (node p) = degree n
  ∧ setSequences (node p) = setSequences n
  ∧ broadcastSequences (node p) = broadcastSequences n
  ∧ routes (node p) = routes n ∧ clients (node p) = clients n
  ∧ trace p = [] ∧ ackChan p = q.
Proof.
  intros Hrun. apply union_Done_inv in Hrun as [Hsz ->]. simpl.
  split; [|split; [|split]]; [| | |done].
  - intros k v Hkv. rewrite merge_rows_lookup, Hkv. eexists. split; [done|].
    destruct (merged_row_ordered (row (mesh n) k ++ v)) as [Hs Hn].
    split; [done|]. split; [done|].
    intros x. by rewrite elem_of_merged_row, elem_of_app.
  - intros k Hk. by rewrite merge_rows_lookup, Hk.
  - by apply (intersection_mesh_empty (merged_node m n)).
Qed.

(** X5.  When, after the merge, the node's own row names a peer that is not
    in the registry, [union] never returns: it blocks for ever holding
    [meshLock] and [clientLock], either inside the repair intersection or
    when [Send] locks [clientLock] again in [broadcastSend], and the
    correcting INTERSECTION is never sent. *)
Theorem union_blocks_on_conflict (m : adjacency) (n : Node) (q : list ack)
    (v : string) :
  (v ∈ row (mesh n) (name n) ∨ ∃ vs, m !! name n = Some vs ∧ v ∈ vs) →
  clients n !! v = None →
  ∃ p, call (union updateRoute m) n q = Stuck p
       ∧ meshLock ∈ held p ∧ clientLock ∈ held p
       ∧ trace p = [] ∧ ackChan p = q.
Proof.
  intros Hv Hc.
  assert (size (intersection_mesh (merged_node m n)) ≠ 0) as Hsz.
  { rewrite intersection_mesh_empty. intros Hall.
    destruct (Hall v) as [c Hc']; [|simpl in Hc'; congruence].
    by apply elem_of_merged_row_at. }
  rewrite union_unfold.
  destruct (decide (size (intersection_mesh (merged_node m n)) ≠ 0)); [|done].
  set (im := intersection_mesh (merged_node m n)).
  set (p2 := Proc (merged_node m n) [clientLock; meshLock] [] q).
  assert (sequenceLock ∉ held p2) as Hfree.
  { simpl. intros [?|[?|?%elem_of_nil]%elem_of_cons]%elem_of_cons; done. }
  destruct (intersect_locked_outcome im p2 Hfree) as [Hret Hblock].
  destruct (emptied_keys_at_most_one (mesh (node p2)) im) as [Hfwd Hback].
  destruct (emptied_keys (mesh (node p2)) (range im)) as [|a [|b r]] eqn:Hek.
  1,2: destruct Hret as (p3 & Hrun & Hheld);
       [apply Hback; first [by left | right; by exists a]|].
  1,2: exists (Proc (set_broadcastSequences
                  <[name (node p3) :=
                      incr64 (seq_of (broadcastSequences (node p3)) (name (node p3)))]>
                  (node p3))
               (held p3) (trace p3) (ackChan p3)).
  1,2: pose proof (silent_intersect_locked im p2) as Hquiet;
       rewrite Hrun in Hquiet; simpl in Hquiet.
  1,2: split; [|rewrite Hheld; simpl; split; [right; by left|split; [by left|done]]].
  1,2: unfold mbind at 1, M_bind at 1.
  1,2: erewrite bind_Done by apply Hrun.
  1,2: erewrite bind_Done by (apply broadcastID_run; by rewrite Hheld).
  1,2: rewrite Send_broadcast by done.
  1,2: rewrite broadcastSend_Stuck by (simpl; rewrite Hheld; by left).
  1,2: reflexivity.
  destruct Hblock as (p3 & Hrun & Hheld).
  { intros Hone. apply Hfwd in Hone as [?|[? ?]]; congruence. }
  pose proof (silent_intersect_locked im p2) as Hquiet.
  rewrite Hrun in Hquiet. simpl in Hquiet.
  exists p3. split.
  - unfold mbind, M_bind. by rewrite Hrun.
  - rewrite Hheld. simpl. split; [right; right; by left|]. split; [right; by left|done].
Qed.
End UnionOutcome.

(** ** How unions and intersections compose *)

Section Compose.
Context `{!MapRange}.
Variable updateRoute : string → Node → Node.

Lemma merge_rows_comm m1 m2 me :
  merge_rows (range m1) (merge_rows (range m2) me)
  = merge_rows (range m2) (merge_rows (range m1) me).
Proof.
  apply map_eq. intros k. rewrite !merge_rows_lookup.
  destruct (m1 !! k) as [v1|] eqn:H1, (m2 !! k) as [v2|] eqn:H2.
  - f_equal. unfold row. rewrite !merge_rows_lookup, H1, H2. simpl.
    apply ordered_ext; [apply merged_row_ordered..|].
    intros x. rewrite !elem_of_merged_row, !elem_of_app, !elem_of_merged_row,
      !elem_of_app. tauto.
  - f_equal. unfold row. by rewrite merge_rows_lookup, H2.
  - f_equal. unfold row. by rewrite merge_rows_lookup, H1.
  - done.
Qed.

Lemma merged_node_comm m1 m2 n :
  merged_node m1 (merged_node m2 n) = merged_node m2 (merged_node m1 n).
Proof.
  unfold merged_node. destruct n. unfold set_mesh. simpl.
  by rewrite merge_rows_comm.
Qed.

(** X6.  Unions commute: when [union] of [m1] followed by [union] of [m2]
    both return, so do they in the other order, and the node ends up the
    same. *)
Theorem union_commute (m1 m2 : adjacency) (n : Node) (q : list ack) (p1 p2 : proc) :
  call (union updateRoute m1) n q = Done () p1 →
  call (union updateRoute m2) (node p1) q = Done () p2 →
  ∃ p1' p2',
    call (union updateRoute m2) n q = Done () p1'
    ∧ call (union updateRoute m1) (node p1') q = Done () p2'
    ∧ node p2' = node p2.
Proof.
  intros [Hsz1 ->]%union_Done_inv [Hsz2 ->]%union_Done_inv. simpl in *.
  assert (size (intersection_mesh (merged_node m2 n)) = 0) as Hsz.
  { rewrite intersection_mesh_empty in Hsz2 |- *. intros v Hv.
    apply (Hsz2 v). apply elem_of_merged_row_at.
    apply elem_of_merged_row_at in Hv as [Hv|Hv]; [|by right].
    left. apply elem_of_merged_row_at. by left. }
  exists (Proc (merged_node m2 n) [] [] q),
         (Proc (merged_node m1 (merged_node m2 n)) [] [] q).
  split; [by apply union_Done|]. split; [|apply merged_node_comm].
  apply union_Done. by rewrite merged_node_comm.
Qed.

(** X7.  Adding an edge and removing it again restores the adjacency map:
    on a map whose rows are in order and non-empty, a returning [union]
    with [{k: [v]}] for a [v] not yet in row [k], followed by the
    intersection with [{k: [v]}], gives back the map it started from; but
    if [k] had no row, the round trip has erased [k]'s sequence entries. *)
Theorem union_intersect_round_trip (k v : string) (n : Node) (q q' : list ack)
    (p1 : proc) :
  mesh_ordered (mesh n) → no_empty_row (mesh n) → v ∉ row (mesh n) k →
  call (union updateRoute {[k := [v]]}) n q = Done () p1 →
  ∃ p2, call (intersect {[k := [v]]}) (node p1) q' = Done () p2
        ∧ mesh (node p2) = mesh n
        ∧ (mesh n !! k = None →
           setSequences (node p2) !! k = None
           ∧ broadcastSequences (node p2) !! k = None).
Proof.
  intros Hord Hne Hv [_ ->]%union_Done_inv. simpl.
  assert (empties_at_most_one (mesh (merged_node {[k := [v]]} n)) {[k := [v]]}) as Hone.
  { intros k1 v1 k2 v2 [-> _]%lookup_singleton_Some [-> _]%lookup_singleton_Some _ _.
    done. }
  apply (intersect_outcome _ _ q') in Hone as [p2 Hrun].
  exists p2. split; [done|].
  assert (mesh (merged_node {[k := [v]]} n) !! k
          = Some (compact (sort_Strings (row (mesh n) k ++ [v])))) as Hk1.
  { unfold merged_node. simpl. by rewrite merge_rows_lookup, lookup_singleton_eq. }
  assert (remove_all [v] (compact (sort_Strings (row (mesh n) k ++ [v])))
          = row (mesh n) k) as Hback.
  { apply ordered_ext.
    - apply ordered_remove_all, merged_row_ordered.
    - by apply row_ordered.
    - intros x. rewrite elem_of_remove_all, elem_of_merged_row, elem_of_app,
        !list_elem_of_singleton.
      split; [intros [[?|?] ?]; done|]. intros Hx. split; [by left|]. by intros ->. }
  destruct (intersect_Done _ _ _ _ _ Hrun k [v] (lookup_singleton_eq _ _)) as [He Hn].
  assert (row (mesh (merged_node {[k := [v]]} n)) k
          = compact (sort_Strings (row (mesh n) k ++ [v]))) as Hrow1
    by (unfold row at 1; by rewrite Hk1).
  rewrite Hrow1, Hback in He, Hn.
  split.
  - apply map_eq. intros k'. destruct (decide (k' = k)) as [->|Hk'].
    + destruct (mesh n !! k) as [l|] eqn:Hl.
      * unfold row in Hn. rewrite Hl in Hn. simpl in Hn. apply Hn.
        by apply (Hne k l).
      * unfold row in He. rewrite Hl in He. simpl in He. by destruct He as [-> _].
    + destruct (intersect_untouched {[k := [v]]} (merged_node {[k := [v]]} n) q' k')
        as [Hme _]; [by apply lookup_singleton_ne|].
      rewrite Hrun in Hme. simpl in Hme. rewrite Hme.
      rewrite merge_rows_lookup. by rewrite lookup_singleton_ne.
  - intros Hnone. unfold row in He. rewrite Hnone in He. simpl in He.
    by destruct He as (_ & ? & ?).
Qed.
End Compose.

(** ** The router and the handler together *)

Section IntersectAt.
Context `{!MapRange}.

Lemma intersect_Done_at m p0 b p :
  meshLock ∉ held p0 →
  intersect m p0 = Done b p →
  ∀ k v, m !! k = Some v →
    (remove_all v (row (mesh (node p0)) k) = [] →
       mesh (node p) !! k = None
       ∧ setSequences (node p) !! k = None
       ∧ broadcastSequences (node p) !! k = None)
    ∧ (remove_all v (row (mesh (node p0)) k) ≠ [] →
       mesh (node p) !! k = Some (remove_all v (row (mesh (node p0)) k))).
Proof.
  unfold intersect, intersect_locked. intros Hfree Hrun k v Hkv.
  erewrite bind_Done in Hrun by (by apply Lock_Done).
  apply bind_Done_inv in Hrun as ([] & p1 & Hlocked & Hunlock).
  apply bind_Done_inv in Hlocked as (d & p2 & Hloop & Hdefer).
  apply intersect_loop_Done in Hloop as [_ Hin]; [|apply range_NoDup_keys].
  specialize (Hin k v (proj2 (elem_of_range m k v) Hkv)). simpl in Hin.
  apply for_each_Unlock_node in Hdefer. simpl in Hdefer.
  assert (node p = node p1) as ->.
  { unfold Unlock in Hunlock. destruct (decide (meshLock ∈ held p1)); [|done].
    by injection Hunlock as _ <-. }
  by rewrite Hdefer.
Qed.

Lemma intersect_returns_at m p0 :
  meshLock ∉ held p0 → sequenceLock ∉ held p0 →
  empties_at_most_one (mesh (node p0)) m →
  ∃ p, intersect m p0 = Done () p
       ∧ held p = held p0 ∧ trace p = trace p0 ∧ ackChan p = ackChan p0.
Proof.
  intros Hm Hs Hone.
  assert (∃ p, intersect m p0 = Done () p ∧ held p = held p0) as (p & Hrun & Hheld).
  { unfold intersect. erewrite bind_Done by (by apply Lock_Done).
    destruct (intersect_locked_outcome m
                (Proc (node p0) (meshLock :: held p0) (trace p0) (ackChan p0)))
      as [Hret _].
    { simpl. by intros [?|?]%elem_of_cons. }
    destruct (Hret Hone) as (p1 & Hrun & Hheld). simpl in Hheld.
    erewrite bind_Done by apply Hrun.
    erewrite Unlock_Done by (rewrite Hheld; by left).
    eexists. split; [reflexivity|]. simpl. rewrite Hheld.
    rewrite filter_cons_False by (intros Hn; by apply Hn).
    by apply filter_other_lock. }
  exists p. split; [done|]. split; [done|].
  pose proof (silent_intersect m p0) as Hq. by rewrite Hrun in Hq.
Qed.
End IntersectAt.

Section RouterHandler.
Context `{!MapRange}.
Variable updateRoute : string → Node → Node.

Lemma messageHandler_BROADCAST_run m n q :
  MessageType m = BROADCAST →
  (seq_of (broadcastSequences n) (Source m) < ID m)%N →
  call (messageHandler updateRoute m) n q
  = handleMessage updateRoute (with_route m (CurrentRoute m ++ [name n]))
      (Proc (set_broadcastSequences <[Source m := ID m]> n) []
            [EGoBroadcastSend (with_route m (CurrentRoute m ++ [name n]))] q).
Proof.
  intros Hm Hid. unfold call, messageHandler.
  erewrite bind_Done by reflexivity. simpl.
  assert (MessageType m ≠ SET) as Hns by (rewrite Hm; discriminate).
  destruct (decide (MessageType m = SET)); [done|].
  destruct (decide (MessageType m = BROADCAST)); [|done].
  destruct (decide (seq_of (broadcastSequences n) (Source m) < ID m)%N); [|lia].
  erewrite bind_Done by (apply Lock_Done; simpl; apply not_elem_of_nil).
  erewrite bind_Done by reflexivity.
  erewrite bind_Done by (apply Unlock_Done; simpl; by left).
  erewrite bind_Done by reflexivity.
  reflexivity.
Qed.

Lemma messageHandler_SET_run m n q :
  MessageType m = SET →
  (seq_of (setSequences n) (Source m) < ID m)%N →
  ∃ tr, call (messageHandler updateRoute m) n q
        = Done () (Proc (set_setSequences <[Source m := ID m]> n) [] tr q).
Proof.
  intros Hm Hid. unfold call, messageHandler.
  erewrite bind_Done by reflexivity. simpl.
  destruct (decide (MessageType m = SET)); [|done].
  destruct (decide (seq_of (setSequences n) (Source m) < ID m)%N); [|lia].
  erewrite bind_Done by (apply Lock_Done; simpl; apply not_elem_of_nil).
  erewrite bind_Done by reflexivity.
  erewrite bind_Done by (apply Unlock_Done; simpl; by left).
  erewrite bind_Done by apply fold_each_split_recipient.
  eexists. reflexivity.
Qed.


(** X9.  The duplicate filter can be undone by the message it let
    through: a fresh BROADCAST INTERSECTION whose body [{src: vs}] empties
    the row of its own source [src] returns with [src]'s broadcast counter
    erased, so that a second copy of the same message is not dropped but
    flooded and applied again. *)
Theorem replay_after_erased_counter (m : Message) (vs : list string) (n : Node)
    (q q' : list ack) :
  MessageType m = BROADCAST → Command m = INTERSECTION →
  Body m = BodyMesh {[Source m := vs]} →
  remove_all vs (row (mesh n) (Source m)) = [] →
  (seq_of (broadcastSequences n) (Source m) < ID m)%N →
  ∃ p, call (messageHandler updateRoute m) n q = Done () p
       ∧ broadcastSequences (node p) !! Source m = None
       ∧ ∃ p', call (messageHandler updateRoute m) (node p) q' = Done () p'
               ∧ trace p'
                 = [EGoBroadcastSend (with_route m (CurrentRoute m ++ [name (node p)]))].
Proof.
  intros Hm Hc Hb Hnv Hid.
  assert (∀ n0 q0,
            remove_all vs (row (mesh n0) (Source m)) = [] →
            (seq_of (broadcastSequences n0) (Source m) < ID m)%N →
            ∃ p, call (messageHandler updateRoute m) n0 q0 = Done () p
                 ∧ broadcastSequences (node p) !! Source m = None
                 ∧ mesh (node p) !! Source m = None
                 ∧ trace p
                   = [EGoBroadcastSend (with_route m (CurrentRoute m ++ [name n0]))])
    as Hpass.
  { intros n0 q0 Hnv0 Hid0. rewrite messageHandler_BROADCAST_run by done.
    unfold handleMessage. simpl. rewrite Hc, Hb. simpl.
    set (p0 := Proc (set_broadcastSequences <[Source m := ID m]> n0) []
                 [EGoBroadcastSend (with_route m (CurrentRoute m ++ [name n0]))] q0).
    destruct (intersect_returns_at {[Source m := vs]} p0)
      as (p & Hrun & _ & Htr & _); [apply not_elem_of_nil..| |].
    { intros k1 v1 k2 v2 [-> _]%lookup_singleton_Some [-> _]%lookup_singleton_Some _ _.
      done. }
    exists p. split; [done|].
    destruct (intersect_Done_at {[Source m := vs]} p0 () p (not_elem_of_nil _) Hrun
                (Source m) vs (lookup_singleton_eq _ _)) as [He _].
    destruct (He Hnv0) as (? & _ & ?). done. }
  destruct (Hpass n q Hnv Hid) as (p & Hrun & Hbs & Hme & _).
  exists p. split; [done|]. split; [done|].
  destruct (Hpass (node p) q') as (p' & Hrun' & _ & _ & Htr').
  - unfold row. rewrite Hme. simpl. by destruct vs.
  - unfold seq_of. rewrite Hbs. simpl. lia.
  - by exists p'.
Qed.

(** X10.  Processing an inbound SET message, fresh or not, never lowers a
    set counter, and leaves the broadcast counters, the adjacency map, the
    routes and the registry as they were. *)
Theorem messageHandler_SET_counters (m : Message) (n : Node) (q : list ack) :
  MessageType m = SET →
  ∃ p, call (messageHandler updateRoute m) n q = Done () p
       ∧ (∀ s, (seq_of (setSequences n) s ≤ seq_of (setSequences (node p)) s)%N)
       ∧ broadcastSequences (node p) = broadcastSequences n
       ∧ mesh (node p) = mesh n
       ∧ routes (node p) = routes n ∧ clients (node p) = clients n.
Proof.
  intros Hm.
  destruct (decide (seq_of (setSequences n) (Source m) < ID m)%N) as [Hid|Hid].
  - destruct (messageHandler_SET_run m n q Hm Hid) as [tr Hrun].
    eexists. split; [apply Hrun|]. simpl. split; [|done].
    intros s. unfold seq_of at 2. destruct (decide (s = Source m)) as [->|Hne].
    + rewrite lookup_insert_eq. simpl. lia.
    + rewrite lookup_insert_ne by done. reflexivity.
  - exists (Proc n [] [] q). split; [|done].
    apply (messageHandler_drop updateRoute m (Proc n [] [] q)); [by left|].
    unfold last_seen. simpl. destruct (decide (MessageType m = SET)); [lia|done].
Qed.
End RouterHandler.

(** ** Broadcasting *)

Lemma seq_of_insert (t : gmap string N) k x : seq_of (<[k := x]> t) k = x.
Proof. unfold seq_of. by rewrite lookup_insert_eq. Qed.

Lemma for_each_emit_sendOne msg kcs p :
  for_each kcs (λ kc : string * client, emit (EGoSendOne kc.2 msg)) p
  = Done () (Proc (node p) (held p) (trace p ++ fan_out msg kcs) (ackChan p)).
Proof.
  revert p. induction kcs as [|kc kcs IH]; intros p.
  - simpl. unfold fan_out. simpl. rewrite app_nil_r. by destruct p.
  - cbn [for_each]. erewrite bind_Done by reflexivity. rewrite IH.
    cbn [node held trace ackChan]. unfold fan_out. rewrite fmap_cons.
    by rewrite <-app_assoc.
Qed.

Section Broadcasting.
Context `{!MapRange}.

Lemma broadcastSend_run msg p :
  clientLock ∉ held p →
  broadcastSend msg p
  = Done () (Proc (node p) (held p)
                  (trace p ++ fan_out msg (range (clients (node p)))) (ackChan p)).
Proof.
  intros Hfree. unfold broadcastSend.
  erewrite bind_Done by (by apply Lock_Done).
  erewrite bind_Done by reflexivity. simpl.
  erewrite bind_Done by apply for_each_emit_sendOne.
  rewrite Unlock_Done by (simpl; by left). simpl.
  rewrite filter_cons_False by (intros Hn; by apply Hn).
  by rewrite filter_other_lock.
Qed.

Lemma elem_of_fan_out msg (cl : gmap string client) e :
  e ∈ fan_out msg (range cl) ↔ ∃ k c, cl !! k = Some c ∧ e = EGoSendOne c msg.
Proof.
  unfold fan_out. rewrite list_elem_of_fmap. split.
  - intros ([k c] & -> & Hin). apply elem_of_range in Hin. by exists k, c.
  - intros (k & c & Hkc & ->). exists (k, c). split; [done|]. by apply elem_of_range.
Qed.

Lemma length_fan_out msg (cl : gmap string client) :
  length (fan_out msg (range cl)) = size cl.
Proof.
  unfold fan_out. rewrite length_fmap, range_perm. apply length_map_to_list.
Qed.

(** X11.  [Broadcast] never blocks and never fails: it takes the node's
    broadcast counter as the id, steps the counter, and spawns exactly one
    send of the message per session in the registry, to nobody else; with
    an empty registry nothing is sent, yet the id is used up. *)
Theorem Broadcast_fan_out (b : body) (n : Node) (q : list ack) :
  let id := seq_of (broadcastSequences n) (name n) in
  let msg := Msg BROADCAST [] (name n) [name n] id MESSAGE b in
  ∃ p, call (Broadcast b) n q = Done () p
       ∧ node p = set_broadcastSequences <[name n := incr64 id]> n
       ∧ (∀ e, e ∈ trace p ↔ ∃ k c, clients n !! k = Some c ∧ e = EGoSendOne c msg)
       ∧ length (trace p) = size (clients n)
       ∧ ackChan p = q ∧ held p = [].
Proof.
  intros id msg. unfold call, Broadcast.
  erewrite bind_Done by reflexivity.
  erewrite bind_Done by (apply broadcastID_run; simpl; apply not_elem_of_nil).
  simpl. rewrite broadcastSend_run by (simpl; apply not_elem_of_nil). simpl.
  eexists. split; [reflexivity|]. simpl. split; [done|]. split.
  - intros e. apply elem_of_fan_out.
  - split; [apply length_fan_out|done].
Qed.

(** X12.  Set ids and broadcast ids come from separate counters, each
    handing out consecutive values modulo 2^64: a broadcast id, a set id
    and another broadcast id drawn in a row are [b], [s] and the successor
    of [b], whatever [s] is; the successor of 2^64-1 is 0. *)
Theorem ids_consecutive (n : Node) (q : list ack) :
  let b := seq_of (broadcastSequences n) (name n) in
  let s := seq_of (setSequences n) (name n) in
  (∃ p, call (i ← broadcastID; j ← setID; k ← broadcastID; mret (i, j, k)) n q
        = Done (b, s, incr64 b) p
        ∧ seq_of (broadcastSequences (node p)) (name n) = incr64 (incr64 b)
        ∧ seq_of (setSequences (node p)) (name n) = incr64 s)
  ∧ ((b < 2 ^ 64 - 1)%N → incr64 b = (b + 1)%N)
  ∧ incr64 (2 ^ 64 - 1) = 0%N.
Proof.
  intros b s. split; [|split].
  - unfold call.
    erewrite bind_Done by (apply broadcastID_run; simpl; apply not_elem_of_nil).
    erewrite bind_Done by (apply setID_run; simpl; apply not_elem_of_nil).
    erewrite bind_Done by (apply broadcastID_run; simpl; apply not_elem_of_nil).
    simpl. rewrite !seq_of_insert. eexists. split; [reflexivity|].
    simpl. by rewrite !seq_of_insert.
  - intros Hb. unfold incr64. apply N.mod_small. lia.
  - reflexivity.
Qed.
End Broadcasting.

(** ** Losing a peer *)

Section LosingPeer.
Context `{!MapRange}.
Variable updateRoute : string → Node → Node.

Lemma receiveHandler_hangup_unfold peer n q :
  call (receiveHandler_hangup updateRoute peer) n q
  = (intersect (<[peer := [name n]]> (<[name n := [peer]]> ∅));;
     id ← broadcastID;
     Send updateRoute
       (Msg BROADCAST [] (name n) [name n] id INTERSECTION
            (BodyMesh (<[peer := [name n]]> (<[name n := [peer]]> ∅))));;
     emit EGoCheckDegree)
      (Proc (set_clients (delete peer) n) [] [] q).
Proof.
  unfold call, receiveHandler_hangup.
  erewrite bind_Done by (apply Lock_Done; simpl; apply not_elem_of_nil).
  erewrite bind_Done by reflexivity.
  erewrite bind_Done by (apply Unlock_Done; simpl; by left).
  erewrite bind_Done by reflexivity.
  reflexivity.
Qed.

Lemma edge_lookup_peer (peer self : string) :
  (<[peer := [self]]> (<[self := [peer]]> ∅) : adjacency) !! peer = Some [self].
Proof. apply lookup_insert_eq. Qed.

Lemma edge_lookup_self (peer self : string) :
  peer ≠ self →
  (<[peer := [self]]> (<[self := [peer]]> ∅) : adjacency) !! self = Some [peer].
Proof. intros Hne. rewrite lookup_insert_ne by done. apply lookup_insert_eq. Qed.

Lemma edge_lookup_Some (peer self k : string) v :
  peer ≠ self →
  (<[peer := [self]]> (<[self := [peer]]> ∅) : adjacency) !! k = Some v →
  (k = peer ∧ v = [self]) ∨ (k = self ∧ v = [peer]).
Proof.
  intros Hne Hk. apply lookup_insert_Some in Hk as [[<- <-]|[Hk1 Hk]]; [by left|].
  apply lookup_insert_Some in Hk as [[<- <-]|[_ Hk]]; [by right|].
  by rewrite lookup_empty in Hk.
Qed.

(** X13.  Losing the last link blocks the teardown: when the departed peer
    was the only neighbour in the node's own row and the node the only
    neighbour in the peer's row, [receiveHandler] removes the session from
    the registry and then blocks for ever inside the intersection; the
    break is never announced and [checkDegree] is never started again. *)
Theorem receiveHandler_blocks_on_last_link (peer : string) (n : Node) (q : list ack) :
  peer ≠ name n →
  remove_all [peer] (row (mesh n) (name n)) = [] →
  remove_all [name n] (row (mesh n) peer) = [] →
  ∃ p, call (receiveHandler_hangup updateRoute peer) n q = Stuck p
       ∧ clients (node p) = delete peer (clients n)
       ∧ trace p = []
       ∧ meshLock ∈ held p ∧ sequenceLock ∈ held p.
Proof.
  intros Hne Hself Hpeer. rewrite receiveHandler_hangup_unfold.
  set (edge := (<[peer := [name n]]> (<[name n := [peer]]> ∅) : adjacency)).
  set (n1 := set_clients (delete peer) n).
  destruct (intersect_outcome edge n1 q) as [_ Hblock].
  destruct Hblock as (p & Hrun & Hm & Hs).
  { intros Hone. apply Hne.
    apply (Hone peer [name n] (name n) [peer]);
      [apply edge_lookup_peer | by apply edge_lookup_self | done..]. }
  exists p. unfold call in Hrun. split.
  { unfold mbind, M_bind. by rewrite Hrun. }
  destruct (intersect_fields edge n1 q) as (_ & _ & _ & Hcl).
  pose proof (silent_intersect edge (Proc n1 [] [] q)) as [Htr _].
  unfold call in Hcl. rewrite Hrun in Hcl, Htr. simpl in Hcl, Htr. done.
Qed.

(** X14.  Otherwise the teardown returns: the session is gone from the
    registry, the edge is gone from both rows, and one INTERSECTION
    carrying the edge has been spawned for every remaining session,
    followed by a new [checkDegree].  The announcement bears the node's
    broadcast counter, unless the node's own row was emptied: then its
    counters were erased with the row and the announcement bears id 0. *)
Theorem receiveHandler_hangup_result (peer : string) (n : Node) (q : list ack) :
  peer ≠ name n →
  remove_all [peer] (row (mesh n) (name n)) ≠ []
  ∨ remove_all [name n] (row (mesh n) peer) ≠ [] →
  let edge : adjacency := <[peer := [name n]]> (<[name n := [peer]]> ∅) in
  let id := if decide (remove_all [peer] (row (mesh n) (name n)) = [])
            then 0%N else seq_of (broadcastSequences n) (name n) in
  ∃ p, call (receiveHandler_hangup updateRoute peer) n q = Done () p
       ∧ clients (node p) = delete peer (clients n)
       ∧ (peer ∉ row (mesh (node p)) (name n))
       ∧ (name n ∉ row (mesh (node p)) peer)
       ∧ trace p
         = fan_out (Msg BROADCAST [] (name n) [name n] id INTERSECTION (BodyMesh edge))
                   (range (delete peer (clients n)))
           ++ [EGoCheckDegree].
Proof.
  intros Hne Hsome edge id. rewrite receiveHandler_hangup_unfold. fold edge.
  set (n1 := set_clients (delete peer) n).
  assert (empties_at_most_one (mesh n1) edge) as Hone.
  { intros k1 v1 k2 v2 H1 H2 He1 He2. subst n1. simpl in He1, He2.
    destruct (edge_lookup_Some peer (name n) k1 v1 Hne H1) as [[-> ->]|[-> ->]];
      destruct (edge_lookup_Some peer (name n) k2 v2 Hne H2) as [[-> ->]|[-> ->]];
      try done; destruct Hsome; done. }
  destruct (intersect_returns_at edge (Proc n1 [] [] q))
    as (p1 & Hrun & Hheld & Htr & Hack); [apply not_elem_of_nil..|done|].
  simpl in Hheld, Htr, Hack.
  destruct (intersect_fields edge n1 q) as (Hnm & _ & _ & Hcl).
  unfold call in Hnm, Hcl. rewrite Hrun in Hnm, Hcl. simpl in Hnm, Hcl.
  pose proof (intersect_Done edge n1 q () p1 Hrun) as Hrows.
  destruct (Hrows peer [name n] (edge_lookup_peer _ _)) as [Hpe Hpn].
  destruct (Hrows (name n) [peer] (edge_lookup_self _ _ Hne)) as [Hse Hsn].
  simpl in Hpe, Hpn, Hse, Hsn.
  assert (seq_of (broadcastSequences (node p1)) (name (node p1)) = id) as Hid.
  { rewrite Hnm. simpl. unfold id.
    destruct (decide (remove_all [peer] (row (mesh n) (name n)) = [])) as [Hnil|Hnn].
    - destruct (Hse Hnil) as (_ & _ & Hb). unfold seq_of. by rewrite Hb.
    - destruct (intersect_Done_counters edge n1 q () p1 Hrun (name n) [peer]
                  (edge_lookup_self _ _ Hne) Hnn) as [_ Hb].
      unfold seq_of. by rewrite Hb. }
  erewrite bind_Done by apply Hrun.
  erewrite bind_Done by (apply broadcastID_run; rewrite Hheld; apply not_elem_of_nil).
  rewrite Hid.
  erewrite bind_Done
    by (rewrite Send_broadcast by done; apply broadcastSend_run;
        simpl; rewrite Hheld; apply not_elem_of_nil).
  eexists. split; [reflexivity|]. simpl. rewrite Hcl, Htr. simpl.
  split; [done|]. split; [|split; [|done]].
  - unfold row at 1.
    destruct (decide (remove_all [peer] (row (mesh n) (name n)) = [])) as [Hnil|Hnn].
    + destruct (Hse Hnil) as (-> & _). apply not_elem_of_nil.
    + rewrite (Hsn Hnn). simpl. rewrite elem_of_remove_all. intros [_ Hn]. apply Hn.
      by left.
  - unfold row at 1.
    destruct (decide (remove_all [name n] (row (mesh n) peer) = [])) as [Hnil|Hnn].
    + destruct (Hpe Hnil) as (-> & _). apply not_elem_of_nil.
    + rewrite (Hpn Hnn). simpl. rewrite elem_of_remove_all. intros [_ Hn]. apply Hn.
      by left.
Qed.
End LosingPeer.

(** ** Dialing *)

Section Dialing.
Context `{!MapRange}.
Variable updateRoute : string → Node → Node.

Lemma union_Done_inv_at m p0 b p :
  held p0 = [] →
  union updateRoute m p0 = Done b p →
  size (intersection_mesh (merged_node m (node p0))) = 0
  ∧ p = Proc (merged_node m (node p0)) [] (trace p0) (ackChan p0).
Proof.
  destruct p0 as [n0 h tr q0]. simpl. intros -> Hrun.
  unfold union in Hrun.
  erewrite bind_Done in Hrun by (apply Lock_Done; simpl; apply not_elem_of_nil).
  erewrite bind_Done in Hrun
    by (apply Lock_Done; simpl; by intros ?%list_elem_of_singleton).
  erewrite bind_Done in Hrun by apply for_each_union_key.
  erewrite bind_Done in Hrun by reflexivity.
  cbn [node held trace ackChan] in Hrun. fold (merged_node m n0) in Hrun.
  destruct (decide (size (intersection_mesh (merged_node m n0)) ≠ 0)) as [Hnz|Hz].
  - exfalso. apply bind_Done_inv in Hrun as (a & p' & Hrep & _). revert Hrep.
    apply (union_repair_not_Done updateRoute _
             (λ id, Msg BROADCAST [] _ [_] id INTERSECTION _)).
    + simpl. by left.
    + done.
  - split; [by destruct (decide (size (intersection_mesh (merged_node m n0)) = 0))|].
    erewrite bind_Done in Hrun by reflexivity.
    erewrite bind_Done in Hrun by (apply Unlock_Done; simpl; by left).
    rewrite Unlock_Done in Hrun by (vm_compute; by left).
    by injection Hrun as _ <-.
Qed.

(** X15.  A dial that returns an error has changed nothing in the node:
    neither a failed connect, nor a handshake that cannot be read, nor a
    peer that is the node itself or is already registered, nor a reply
    that cannot be written leaves a trace in the registry, the adjacency
    map or the sequence tables. *)
Theorem dial_error_unchanged (dialed : string + nat) (decoded : string + Message)
    (encoded : error) (solicited : bool) (n : Node) (q : list ack)
    (e : string) (p : proc) :
  call (dial updateRoute dialed decoded encoded solicited) n q = Done (Some e) p →
  node p = n.
Proof.
  unfold call, dial. intros Hrun.
  destruct dialed as [err|c]; [by injection Hrun as _ <-|].
  destruct decoded as [err|hs]; [by injection Hrun as _ <-|].
  erewrite bind_Done in Hrun by reflexivity. cbn [node] in Hrun.
  destruct (decide (Source hs = name n)).
  { erewrite bind_Done in Hrun by reflexivity. by injection Hrun as _ <-. }
  destruct (decide (is_Some (clients n !! Source hs))).
  { erewrite bind_Done in Hrun by reflexivity. by injection Hrun as _ <-. }
  destruct (decide (Command hs = HANDSHAKE ∧ solicited = true)).
  { erewrite bind_Done in Hrun by reflexivity. by injection Hrun as _ <-. }
  erewrite bind_Done in Hrun by reflexivity.
  destruct encoded as [err|]; [by injection Hrun as _ <-|].
  exfalso.
  erewrite bind_Done in Hrun by (apply Lock_Done; simpl; apply not_elem_of_nil).
  erewrite bind_Done in Hrun by reflexivity.
  erewrite bind_Done in Hrun by (apply Unlock_Done; simpl; by left).
  erewrite bind_Done in Hrun by reflexivity.
  destruct (Body hs) as [mesh0| | |]; [|done..].
  apply bind_Done_inv in Hrun as (? & ? & _ & Hrun).
  apply bind_Done_inv in Hrun as (? & ? & _ & Hrun).
  apply bind_Done_inv in Hrun as (? & ? & _ & Hrun).
  apply bind_Done_inv in Hrun as (? & ? & _ & Hrun).
  discriminate Hrun.
Qed.

(** X16.  A dial that goes through returns nil with the peer installed:
    the peer is neither the node itself nor was it registered before; the
    registry now holds the new socket under the peer's name; the adjacency
    map has the edge in both rows; and every session of the registry,
    the new one included, is sent a UNION that carries the resulting
    adjacency map. *)
Theorem dial_installs (c : nat) (hs : Message) (encoded : error) (solicited : bool)
    (n : Node) (q : list ack) (p : proc) :
  call (dial updateRoute (inr c) (inr hs) encoded solicited) n q = Done None p →
  ¬ (Command hs = HANDSHAKE ∧ solicited = true) →
  Source hs ≠ name n
  ∧ clients n !! Source hs = None
  ∧ clients (node p) = <[Source hs := Client c]> (clients n)
  ∧ Source hs ∈ row (mesh (node p)) (name n)
  ∧ name n ∈ row (mesh (node p)) (Source hs)
  ∧ ∃ id, ∀ k c', clients (node p) !! k = Some c' →
      EGoSendOne c' (Msg BROADCAST [] (name n) [name n] id UNION
                       (BodyMesh (mesh (node p)))) ∈ trace p.
Proof.
  unfold call, dial. intros Hrun Hdecl.
  erewrite bind_Done in Hrun by reflexivity. cbn [node] in Hrun.
  destruct (decide (Source hs = name n)) as [|Hsrc].
  { erewrite bind_Done in Hrun by reflexivity. discriminate Hrun. }
  destruct (decide (is_Some (clients n !! Source hs))) as [|Hnew].
  { erewrite bind_Done in Hrun by reflexivity. discriminate Hrun. }
  destruct (decide (Command hs = HANDSHAKE ∧ solicited = true)); [done|].
  erewrite bind_Done in Hrun by reflexivity.
  destruct encoded as [err|]; [discriminate Hrun|].
  erewrite bind_Done in Hrun by (apply Lock_Done; simpl; apply not_elem_of_nil).
  erewrite bind_Done in Hrun by reflexivity.
  erewrite bind_Done in Hrun by (apply Unlock_Done; simpl; by left).
  erewrite bind_Done in Hrun by reflexivity.
  cbn [node held trace ackChan] in Hrun.
  destruct (Body hs) as [mesh0| | |]; [|done..].
  apply bind_Done_inv in Hrun as ([] & p1 & Hunion & Hrun).
  apply union_Done_inv_at in Hunion as [Hsz ->]; [|by vm_compute].
  cbn [node held trace ackChan] in Hrun.
  erewrite bind_Done in Hrun by (apply broadcastID_run; simpl; apply not_elem_of_nil).
  erewrite bind_Done in Hrun by reflexivity.
  erewrite bind_Done in Hrun
    by (rewrite Send_broadcast by done; apply broadcastSend_run;
        simpl; apply not_elem_of_nil).
  injection Hrun as <-. cbn [node trace].
  split; [done|]. split; [by apply eq_None_not_Some|]. split; [done|].
  set (mesh1 := <[name n := row mesh0 (name n) ++ [Source hs]]> mesh0).
  set (mesh2 := <[Source hs := row mesh1 (Source hs) ++ [name n]]> mesh1).
  set (n1 := set_clients <[Source hs := Client c]> n).
  split; [|split].
  - change (Source hs ∈ row (mesh (merged_node mesh2 n1)) (name n)).
    apply elem_of_merged_row_at. right. exists (row mesh0 (name n) ++ [Source hs]).
    split; [|apply elem_of_app; right; by left].
    unfold mesh2, mesh1. rewrite lookup_insert_ne by done. apply lookup_insert_eq.
  - change (name n ∈ row (mesh (merged_node mesh2 n1)) (Source hs)).
    apply elem_of_merged_row_at. right. exists (row mesh1 (Source hs) ++ [name n]).
    split; [apply lookup_insert_eq|apply elem_of_app; right; by left].
  - exists (seq_of (broadcastSequences n) (name n)). intros k c' Hkc.
    right. right.
    apply (elem_of_fan_out _ (<[Source hs := Client c]> (clients n))).
    by exists k, c'.
Qed.
End Dialing.

(** ** Accepting *)

Section Accepting.
Context `{!MapRange}.
Variable updateRoute : string → Node → Node.

Lemma Hangup_registered peer c n q :
  clients n !! peer = Some c →
  call (Hangup peer) n q = Done None (Proc n [] [EHangup c] q).
Proof.
  intros Hc. unfold call, Hangup.
  erewrite bind_Done by (apply Lock_Done; simpl; apply not_elem_of_nil).
  erewrite bind_Done by reflexivity. simpl. rewrite Hc.
  erewrite bind_Done by reflexivity.
  erewrite bind_Done by (apply Unlock_Done; simpl; by left).
  reflexivity.
Qed.

(** X17.  A session the acceptor has installed can be hung up: after
    [handleConnection] has completed the handshake on socket [c] with a
    peer announcing itself as [s], [Hangup] of [s] returns nil and signals
    the session on socket [c], whatever session was registered under [s]
    before. *)
Theorem accept_then_Hangup (c : nat) (hs : Message) (n : Node) (q q' : list ack)
    (p : proc) :
  call (handleConnection c None (inr hs)) n q = Done () p →
  call (Hangup (Source hs)) (node p) q'
  = Done None (Proc (node p) [] [EHangup (Client c)] q').
Proof.
  intros Hrun. destruct (handleConnection_installs c hs n q) as [hello Hinst].
  rewrite Hinst in Hrun. injection Hrun as <-. simpl.
  apply Hangup_registered. simpl. apply lookup_insert_eq.
Qed.

Lemma handleConnection_hello c encoded decoded n q :
  ∃ p rest,
    call (handleConnection c encoded decoded) n q = Done () p
    ∧ trace p
      = EEncode c (Msg SET [] (name n) [name n] 0
                     (if decide (N.of_nat (size (clients n)) < degree n)%N
                      then HANDSHAKE_SOLICITED else HANDSHAKE)
                     (BodyMesh (mesh n))) :: rest.
Proof.
  unfold call, handleConnection.
  erewrite bind_Done by reflexivity. cbn [node].
  erewrite bind_Done by reflexivity.
  destruct encoded as [err|].
  { unfold report_unless_EOF. destruct (decide (err = EOF)); do 2 eexists;
      (split; [reflexivity|]); reflexivity. }
  destruct decoded as [err|hs].
  { unfold report_unless_EOF. destruct (decide (err = EOF)); do 2 eexists;
      (split; [reflexivity|]); reflexivity. }
  erewrite bind_Done by (apply Lock_Done; simpl; apply not_elem_of_nil).
  erewrite bind_Done by reflexivity.
  erewrite bind_Done by (apply Unlock_Done; simpl; by left).
  do 2 eexists. split; reflexivity.
Qed.

(** X18.  Both ends agree that a redundant link is dropped: when an
    acceptor whose registry has reached its degree sends its handshake,
    a dialer that had been solicited, is not the acceptor itself and has
    no session with it yet, closes the socket and returns nil without
    changing its node or sending a reply. *)
Theorem satisfied_acceptor_declined (ca cd : nat) (encoded : error)
    (decoded : string + Message) (na nd : Node) (qa qd : list ack)
    (pa : proc) (hello : Message) (rest : list effect) (reply : error) :
  (degree na ≤ N.of_nat (size (clients na)))%N →
  call (handleConnection ca encoded decoded) na qa = Done () pa →
  trace pa = EEncode ca hello :: rest →
  name na ≠ name nd → clients nd !! name na = None →
  call (dial updateRoute (inr cd) (inr hello) reply true) nd qd
  = Done None (Proc nd [] [EClose cd] qd).
Proof.
  intros Hdeg Hrun Htr Hne Hnew.
  destruct (handleConnection_hello ca encoded decoded na qa) as (p & r & Hrun' & Htr').
  rewrite Hrun in Hrun'. injection Hrun' as <-. rewrite Htr in Htr'.
  injection Htr' as -> _.
  destruct (decide (N.of_nat (size (clients na)) < degree na)%N); [lia|].
  unfold call, dial. erewrite bind_Done by reflexivity. simpl.
  destruct (decide (name na = name nd)); [done|].
  destruct (decide (is_Some (clients nd !! name na))) as [[? Hs]|_]; [congruence|].
  destruct (decide (HANDSHAKE = HANDSHAKE ∧ true = true)) as [_|Hn];
    [|by destruct Hn].
  erewrite bind_Done by reflexivity. reflexivity.
Qed.
End Accepting.

(** ** Recipients without route *)

Section Unroutable.
Context `{!MapRange}.
Variable updateRoute : string → Node → Node.




End Unroutable.

(** ** Discovery *)

Lemma split_colon_not_nil s : split_colon s ≠ [].
Proof.
  destruct s as [|c s]; simpl; [done|].
  destruct (decide (c = ":"%char)); [done|]. by destruct (split_colon s).
Qed.

Lemma split_colon_free s : colon_free s → split_colon s = [s].
Proof.
  induction s as [|c s IH]; simpl; [done|]. intros [Hc Hs].
  destruct (decide (c = ":"%char)); [done|]. by rewrite IH.
Qed.

Lemma split_colon_app (a b : string) :
  colon_free a → split_colon (a +:+ ":" +:+ b) = a :: split_colon b.
Proof.
  induction a as [|c a IH]; intros Ha.
  - change (split_colon (String ":" b) = "" :: split_colon b). simpl.
    by destruct (decide (":"%char = ":"%char)).
  - destruct Ha as [Hc Ha].
    change (split_colon (String c (a +:+ ":" +:+ b)) = String c a :: split_colon b).
    simpl. destruct (decide (c = ":"%char)); [done|]. by rewrite IH.
Qed.

Lemma split_colon_pieces s : Forall colon_free (split_colon s).
Proof.
  induction s as [|c s IH]; simpl; [by repeat constructor|].
  destruct (decide (c = ":"%char)); [by constructor|].
  destruct (split_colon s) as [|w ws]; [by repeat constructor|].
  apply Forall_cons in IH as [Hw Hws]. by repeat constructor.
Qed.

Lemma concat_colon_cons (w : string) (ws : list string) :
  ws ≠ [] → String.concat ":" (w :: ws) = w +:+ ":" +:+ String.concat ":" ws.
Proof. by destruct ws. Qed.

Lemma split_colon_join :
  (∀ s, Forall colon_free (split_colon s) ∧ split_colon s ≠ []
        ∧ String.concat ":" (split_colon s) = s)
  ∧ (∀ l, l ≠ [] → Forall colon_free l → split_colon (String.concat ":" l) = l).
Proof.
  split.
  - intros s. split; [apply split_colon_pieces|]. split; [apply split_colon_not_nil|].
    induction s as [|c s IH]; simpl; [done|].
    destruct (decide (c = ":"%char)) as [->|Hc].
    + rewrite concat_colon_cons by apply split_colon_not_nil. by rewrite IH.
    + pose proof (split_colon_not_nil s) as Hnn.
      destruct (split_colon s) as [|w ws]; [done|].
      destruct ws as [|w' ws].
      * simpl in *. by rewrite IH.
      * rewrite concat_colon_cons by done. rewrite concat_colon_cons in IH by done.
        by rewrite <-IH.
  - intros l Hl Hfree. induction l as [|w ws IH]; [done|].
    apply Forall_cons in Hfree as [Hw Hws].
    destruct ws as [|w' ws].
    + simpl. by apply split_colon_free.
    + rewrite concat_colon_cons by done. rewrite split_colon_app by done.
      by rewrite IH.
Qed.

(** X20.  Splitting at colons loses nothing: the pieces contain no colon,
    there is at least one, and joined by colons they give the datagram
    back; conversely a non-empty list of colon-free pieces is what
    splitting their join returns. *)
Theorem split_colon_round_trip :
  (∀ s, Forall colon_free (split_colon s) ∧ split_colon s ≠ []
        ∧ String.concat ":" (split_colon s) = s)
  ∧ (∀ l, l ≠ [] → Forall colon_free l → split_colon (String.concat ":" l) = l).
Proof. exact split_colon_join. Qed.

Lemma split_solicitation nm : split_colon (solicitation nm) = "meshage" :: split_colon nm.
Proof. apply (split_colon_app "meshage" nm). by vm_compute. Qed.

Lemma listener_dials (self payload host : string) :
  broadcastListener_packet self payload = DialSolicited host ↔
  payload = solicitation host ∧ colon_free host ∧ host ≠ self.
Proof.
  unfold broadcastListener_packet. split.
  - intros Hrun.
    destruct split_colon_join as [Hsplit _].
    destruct (Hsplit payload) as (Hfree & _ & Hjoin).
    destruct (decide (length (split_colon payload) ≠ 2)) as [|Hlen]; [done|].
    destruct (split_colon payload) as [|w0 [|w1 [|w2 ws]]] eqn:Hsp;
      try (exfalso; apply Hlen; simpl; lia).
    simpl in Hrun.
    destruct (decide (w0 ≠ "meshage")) as [|Htag]; [done|].
    destruct (decide (w1 = self)) as [|Hself]; [done|].
    injection Hrun as ->.
    assert (w0 = "meshage") as -> by (by destruct (decide (w0 = "meshage"))).
    split; [by rewrite <-Hjoin|]. split; [|done].
    apply Forall_cons in Hfree as [_ Hfree]. by apply Forall_cons in Hfree as [? _].
  - intros (-> & Hfree & Hself).
    rewrite split_solicitation, split_colon_free by done. simpl.
    destruct (decide ("meshage" ≠ "meshage")) as [Hn|_]; [done|].
    by destruct (decide (host = self)).
Qed.

(** X21.  The listener dials exactly the well-formed solicitations of
    others: a datagram makes [broadcastListener] dial [host] if and only if
    it is the solicitation [checkDegree] sends for the name [host], [host]
    contains no colon, and [host] is not the listener's own name.  In
    particular a node whose name contains a colon is never dialled. *)
Theorem broadcastListener_dials_iff (self payload host : string) :
  broadcastListener_packet self payload = DialSolicited host ↔
  payload = solicitation host ∧ colon_free host ∧ host ≠ self.
Proof. apply listener_dials. Qed.

Lemma next_backoff_bounds b : (1 ≤ b ≤ 7)%N → (1 ≤ next_backoff b ≤ 7)%N.
Proof.
  intros Hb. unfold next_backoff. destruct (b <? 7)%N eqn:Hlt; [|done].
  apply N.ltb_lt in Hlt. lia.
Qed.

Lemma backoff_at_bounds k : (1 ≤ backoff_at k ≤ 7)%N.
Proof.
  induction k as [|k IH]; [done|].
  change (backoff_at (S k)) with (next_backoff (backoff_at k)).
  by apply next_backoff_bounds.
Qed.

(** X22.  The wait between two solicitations is bounded: [backoff] starts
    at 1, grows by one per iteration and stays at 7, so the bound handed to
    [Intn] in iteration [k] is [2^min(k+1, 7)], never more than 128. *)
Theorem solicitation_wait_bounded (k : nat) :
  backoff_at k = N.min (N.of_nat k + 1) 7
  ∧ wait_bound (backoff_at k) = (2 ^ N.min (N.of_nat k + 1) 7)%N
  ∧ (2 ≤ wait_bound (backoff_at k) ≤ 128)%N.
Proof.
  assert (backoff_at k = N.min (N.of_nat k + 1) 7) as Hat.
  { induction k as [|k IH]; [done|].
    change (backoff_at (S k)) with (next_backoff (backoff_at k)).
    rewrite IH. unfold next_backoff.
    destruct (N.min (N.of_nat k + 1) 7 <? 7)%N eqn:Hlt.
    - apply N.ltb_lt in Hlt. lia.
    - apply N.ltb_ge in Hlt. lia. }
  split; [done|].
  assert (wait_bound (backoff_at k) = (2 ^ N.min (N.of_nat k + 1) 7)%N) as Hw.
  { unfold wait_bound. rewrite N.shiftl_1_l. by rewrite Hat. }
  split; [done|]. rewrite Hw.
  pose proof (backoff_at_bounds k) as Hb. rewrite Hat in Hb.
  split.
  - change 2%N with (2 ^ 1)%N at 1. apply N.pow_le_mono_r; lia.
  - change 128%N with (2 ^ 7)%N. apply N.pow_le_mono_r; lia.
Qed.

(** X23.  What a node solicits is what its neighbours hear: while the
    registry is below the degree and the socket works, an iteration of
    [checkDegree] sends a datagram that makes the listener of every node
    with another name dial this node, provided the name has no colon; a
    node whose registry has reached its degree, in particular one of
    degree 0, sends nothing. *)
Theorem solicitation_heard (n : Node) (backoff : N) (self : string) :
  ((N.of_nat (size (clients n)) < degree n)%N →
     colon_free (name n) → name n ≠ self →
     ∃ packet,
       checkDegree_iteration n None None backoff
       = Solicit packet (wait_bound backoff) (next_backoff backoff)
       ∧ broadcastListener_packet self packet = DialSolicited (name n))
  ∧ ((degree n ≤ N.of_nat (size (clients n)))%N →
     ∀ dialed written,
       checkDegree_iteration n dialed written backoff = DegreeReached).
Proof.
  split.
  - intros Hdeg Hfree Hself. exists (solicitation (name n)). split.
    + unfold checkDegree_iteration.
      by destruct (decide (N.of_nat (size (clients n)) < degree n)%N).
    + by apply listener_dials.
  - intros Hdeg dialed written. unfold checkDegree_iteration.
    destruct (decide (N.of_nat (size (clients n)) < degree n)%N); [lia|done].
Qed.

(** ** Further statements at concrete inputs *)

Lemma intersect_frame_witness :
  edges_b_c !! "a" = None
  ∧ setSequences
      (node (final (call (@intersect canonical_range edges_b_c)
                         node_a_with_counters []))) !! "a"
    = setSequences node_a_with_counters !! "a".
Proof.
  assert (edges_b_c !! "a" = None) as Hk by (vm_compute; reflexivity).
  split; [exact Hk|].
  apply (@intersect_frame canonical_range edges_b_c node_a_with_counters [] "a" Hk).
Defined.

Lemma intersect_idempotent_witness :
  ∃ p p', call (@intersect canonical_range {["b" := ["a"]]}) node_a_with_counters []
          = Done () p
          ∧ call (@intersect canonical_range {["b" := ["a"]]}) (node p) [] = Done () p'
          ∧ node p' = node p.
Proof.
  eexists.
  edestruct (@intersect_idempotent canonical_range {["b" := ["a"]]}
               node_a_with_counters [] []) as (p' & Hrun & Heq);
    [vm_compute; reflexivity|].
  exists p'. split; [vm_compute; reflexivity|]. split; [exact Hrun|exact Heq].
Defined.

Lemma union_result_witness :
  ∃ p, call (@union canonical_range no_refresh fragment_x) (NewNode "a" 1) []
       = Done () p
       ∧ trace p = [] ∧ clients (node p) = clients (NewNode "a" 1).
Proof.
  eexists. split; [vm_compute; reflexivity|].
  edestruct (@union_result canonical_range no_refresh fragment_x (NewNode "a" 1) [])
    as (_ & _ & _ & _ & _ & _ & _ & _ & Hcl & Htr & _);
    [vm_compute; reflexivity|].
  split; [exact Htr|exact Hcl].
Defined.

Lemma union_blocks_on_conflict_witness :
  ∃ p, call (@union canonical_range no_refresh {["a" := ["b"]]}) (NewNode "a" 1) []
       = Stuck p
       ∧ meshLock ∈ held p ∧ clientLock ∈ held p
       ∧ trace p = [] ∧ ackChan p = [].
Proof.
  apply (@union_blocks_on_conflict canonical_range no_refresh
           {["a" := ["b"]]} (NewNode "a" 1) [] "b").
  - right. exists ["b"]. split; [vm_compute; reflexivity|]. by left.
  - vm_compute. reflexivity.
Defined.

Lemma union_commute_witness :
  ∃ p1 p2 p1' p2',
    call (@union canonical_range no_refresh fragment_x) (NewNode "a" 1) [] = Done () p1
    ∧ call (@union canonical_range no_refresh {["y" := ["a"]]}) (node p1) []
      = Done () p2
    ∧ call (@union canonical_range no_refresh {["y" := ["a"]]}) (NewNode "a" 1) []
      = Done () p1'
    ∧ call (@union canonical_range no_refresh fragment_x) (node p1') [] = Done () p2'
    ∧ node p2' = node p2.
Proof.
  do 2 eexists.
  edestruct (@union_commute canonical_range no_refresh fragment_x {["y" := ["a"]]}
               (NewNode "a" 1) []) as (p1' & p2' & H1 & H2 & H3);
    [vm_compute; reflexivity | vm_compute; reflexivity |].
  exists p1', p2'.
  split; [vm_compute; reflexivity|]. split; [vm_compute; reflexivity|].
  split; [exact H1|]. split; [exact H2|exact H3].
Defined.

Lemma union_intersect_round_trip_witness :
  ∃ p1 p2,
    call (@union canonical_range no_refresh {["x" := ["b"]]}) (NewNode "a" 1) []
    = Done () p1
    ∧ call (@intersect canonical_range {["x" := ["b"]]}) (node p1) [] = Done () p2
    ∧ mesh (node p2) = mesh (NewNode "a" 1).
Proof.
  eexists.
  edestruct (@union_intersect_round_trip canonical_range no_refresh "x" "b"
               (NewNode "a" 1) [] []) as (p2 & Hrun & Hme & _).
  - intros k l Hl. simpl in Hl. by rewrite lookup_empty in Hl.
  - intros k l Hl. simpl in Hl. by rewrite lookup_empty in Hl.
  - vm_compute. apply not_elem_of_nil.
  - vm_compute. reflexivity.
  - exists p2. split; [vm_compute; reflexivity|]. split; [exact Hrun|exact Hme].
Defined.


Lemma replay_after_erased_counter_witness :
  ∃ p, call (@messageHandler canonical_range no_refresh withdrawal_from_b)
            (NewNode "a" 1) []
       = Done () p
       ∧ broadcastSequences (node p) !! "b" = None
       ∧ ∃ p', call (@messageHandler canonical_range no_refresh withdrawal_from_b)
                    (node p) []
               = Done () p'
               ∧ trace p'
                 = [EGoBroadcastSend
                      (with_route withdrawal_from_b ["b"; name (node p)])].
Proof.
  apply (@replay_after_erased_counter canonical_range no_refresh
           withdrawal_from_b ["a"] (NewNode "a" 1) [] []).
  - reflexivity.
  - reflexivity.
  - reflexivity.
  - vm_compute. reflexivity.
  - vm_compute. reflexivity.
Defined.

Lemma messageHandler_SET_counters_witness :
  ∃ p, call (@messageHandler canonical_range no_refresh set_from_b)
            node_a_with_counters []
       = Done () p
       ∧ mesh (node p) = mesh node_a_with_counters.
Proof.
  destruct (@messageHandler_SET_counters canonical_range no_refresh set_from_b
              node_a_with_counters []) as (p & Hrun & _ & _ & Hme & _);
    [reflexivity|].
  exists p. split; [exact Hrun|exact Hme].
Defined.

Lemma receiveHandler_blocks_on_last_link_witness :
  ∃ p, call (@receiveHandler_hangup canonical_range no_refresh "b")
            node_a_linked_to_b []
       = Stuck p
       ∧ clients (node p) = delete "b" (clients node_a_linked_to_b)
       ∧ trace p = []
       ∧ meshLock ∈ held p ∧ sequenceLock ∈ held p.
Proof.
  apply (@receiveHandler_blocks_on_last_link canonical_range no_refresh "b"
           node_a_linked_to_b []).
  - vm_compute. discriminate.
  - vm_compute. reflexivity.
  - vm_compute. reflexivity.
Defined.

Lemma receiveHandler_hangup_result_witness :
  ∃ p, call (@receiveHandler_hangup canonical_range no_refresh "b")
            node_a_linked_to_b_c []
       = Done () p
       ∧ clients (node p) = delete "b" (clients node_a_linked_to_b_c).
Proof.
  destruct (@receiveHandler_hangup_result canonical_range no_refresh "b"
              node_a_linked_to_b_c []) as (p & Hrun & Hcl & _).
  - vm_compute. discriminate.
  - left. vm_compute. discriminate.
  - exists p. split; [exact Hrun|exact Hcl].
Defined.

Lemma dial_error_unchanged_witness :
  ∃ e p, call (@dial canonical_range no_refresh (inr 3) (inr (reply_from "a"))
                 None false) (NewNode "a" 1) []
         = Done (Some e) p
         ∧ node p = NewNode "a" 1.
Proof.
  do 2 eexists. split; [vm_compute; reflexivity|].
  apply (@dial_error_unchanged canonical_range no_refresh (inr 3)
           (inr (reply_from "a")) None false (NewNode "a" 1) []
           "connecting to myself is not allowed").
  vm_compute. reflexivity.
Defined.

Lemma dial_installs_witness :
  ∃ p, call (@dial canonical_range no_refresh (inr 3) (inr hello_from_b) None false)
            (NewNode "a" 1) []
       = Done None p
       ∧ "b" ∈ row (mesh (node p)) "a" ∧ "a" ∈ row (mesh (node p)) "b".
Proof.
  eexists. split; [vm_compute; reflexivity|].
  edestruct (@dial_installs canonical_range no_refresh 3 hello_from_b None false
               (NewNode "a" 1) []) as (_ & _ & _ & Hab & Hba & _).
  - vm_compute. reflexivity.
  - intros [Hc _]. discriminate Hc.
  - split; [exact Hab|exact Hba].
Defined.

Lemma accept_then_Hangup_witness :
  ∃ p, call (handleConnection 7 None (inr (reply_from "b"))) (NewNode "a" 1) []
       = Done () p
       ∧ call (Hangup "b") (node p) []
         = Done None (Proc (node p) [] [EHangup (Client 7)] []).
Proof.
  eexists. split; [vm_compute; reflexivity|].
  apply (accept_then_Hangup 7 (reply_from "b") (NewNode "a" 1) [] []).
  vm_compute. reflexivity.
Defined.

Lemma satisfied_acceptor_declined_witness :
  call (@dial canonical_range no_refresh (inr 4) (inr cold_hello_from_b) None true)
       (NewNode "a" 1) []
  = Done None (Proc (NewNode "a" 1) [] [EClose 4] []).
Proof.
  eapply (@satisfied_acceptor_declined canonical_range no_refresh 5 4 None
            (inl EOF) (NewNode "b" 0) (NewNode "a" 1) [] []).
  - vm_compute. discriminate.
  - vm_compute. reflexivity.
  - reflexivity.
  - vm_compute. discriminate.
  - vm_compute. reflexivity.
Defined.


(** ** A union that stops the router *)

Section RouterBlocked.
Context `{!MapRange}.
Variable updateRoute : string → Node → Node.



End RouterBlocked.


Lemma intersect_returns_iff_witness :
  ¬ empties_at_most_one (mesh node_a_with_counters) edges_b_c
  ∧ ∃ p, call (@intersect canonical_range edges_b_c) node_a_with_counters []
         = Stuck p
         ∧ meshLock ∈ held p ∧ sequenceLock ∈ held p.
Proof.
  assert (¬ empties_at_most_one (mesh node_a_with_counters) edges_b_c) as Hmany.
  { intros Hone.
    specialize (Hone "b" ["a"] "c" ["a"] eq_refl eq_refl eq_refl eq_refl).
    discriminate Hone. }
  split; [exact Hmany|].
  exact (proj2 (@intersect_returns_iff canonical_range edges_b_c
                  node_a_with_counters []) Hmany).
Defined.

Lemma solicitation_heard_witness :
  ∃ packet,
    checkDegree_iteration (NewNode "a" 1) None None 1
    = Solicit packet (wait_bound 1) (next_backoff 1)
    ∧ broadcastListener_packet "b" packet = DialSolicited "a".
Proof.
  apply (proj1 (solicitation_heard (NewNode "a" 1) 1 "b")).
  - vm_compute. reflexivity.
  - vm_compute. split; [discriminate|exact I].
  - discriminate.
Defined.
